(** * SHA3-256 file hasher (sha3-256.c): shallow embedding and properties

    The C program reads a file in blocks of [RATE_BYTES], pads the last
    block, XORs every block into a 5x5 state of 64-bit lanes, runs
    Keccak-f[1600] after every block and prints four lanes of the final
    state.  The embedding below follows the C text function by function:

    - [uint8_t] buffers are [list byte], indexed with C [int]s (here [Z]);
    - [uint64_t] lanes are [Z] with the wrap-around of [<<] and [~] written
      out; the other lane operations ([^], [|], [&], [>>]) cannot leave the
      64-bit range;
    - [uint64_t *state[5]] is a list of five rows of five lanes (the rows
      are five separate heap blocks, so they never alias);
    - [for] loops are run by one combinator, [c_for], that carries the loop
      counter and the variables the body assigns;
    - everything the program writes to the terminal is collected in a
      [string]. *)

From Stdlib Require Import ZArith Strings.Byte Strings.Ascii Lia.
From Stdlib Require Zmod.ZmodInv.
From stdpp Require Import list numbers strings.

Local Open Scope Z_scope.

(** ** Constants of the program *)

Definition KECCAK_ROUNDS : Z := 24.
Definition OUTPUT_BITS : Z := 256.
Definition OUTPUT_BYTES : Z := OUTPUT_BITS ÷ 8.
Definition RATE : Z := 1088.
Definition RATE_BYTES : Z := RATE ÷ 8.
Definition CAPACITY : Z := 512.
Definition CAPACITY_BYTES : Z := CAPACITY ÷ 8.

(** ** C control flow and memory access *)

(** [for (i = init; cond i; i = next i) body], run for at most [fuel]
    iterations.  The result is the value of the counter after the loop
    together with the variables the body assigns. *)
Fixpoint c_for {S : Type} (fuel : nat) (cond : Z → bool) (next : Z → Z)
    (body : Z → S → S) (i : Z) (s : S) : Z * S :=
  match fuel with
  | O => (i, s)
  | Datatypes.S fuel' =>
      if cond i then c_for fuel' cond next body (next i) (body i s)
      else (i, s)
  end.

(** [for (i = lo; i < hi; i++)]: the condition fails after exactly
    [hi - lo] iterations (none when [hi <= lo]). *)
Definition for_up {S : Type} (lo hi : Z) (body : Z → S → S) (s : S) : Z * S :=
  c_for (Z.to_nat (hi - lo)) (λ i, i <? hi) Z.succ body lo s.

(** [for (j = hi; j >= lo; j--)]. *)
Definition for_down {S : Type} (hi lo : Z) (body : Z → S → S) (s : S) : Z * S :=
  c_for (Z.to_nat (hi - lo + 1)) (λ j, j >=? lo) Z.pred body hi s.

(** [input[k]] as an rvalue and [input[k] = b].  The program only uses
    offsets inside the 200-byte buffer; outside it the C text has no
    meaning, and the model reads [0x00] and writes nothing. *)
Definition rd (input : list byte) (k : Z) : byte :=
  if k <? 0 then x00 else default x00 (input !! Z.to_nat k).

Definition wr (input : list byte) (k : Z) (b : byte) : list byte :=
  if k <? 0 then input else <[Z.to_nat k := b]> input.

(** ** pad_input *)

Definition pad_input (input : list byte) (input_len : Z) : list byte :=
  if input_len <? RATE_BYTES then
    let q := RATE_BYTES - Z.rem input_len RATE_BYTES in
    if q =? 1 then
      wr input input_len x86
    else if q =? 2 then
      let input := wr input input_len x06 in
      wr input (input_len + 1) x80
    else
      let input := wr input input_len x06 in
      let '(i, input) :=
        for_up 1 (q - 2) (λ i input, wr input (input_len + i) x00) input in
      wr input (input_len + i + 1) x80
  else input.

(** ** 64-bit lanes *)

(** [x << r] on a [uint64_t]: the bits shifted past bit 63 are lost. *)
Definition shl64 (x r : Z) : Z := Z.shiftl x r mod 2 ^ 64.

(** [~x] on a [uint64_t]. *)
Definition not64 (x : Z) : Z := Z.lnot x mod 2 ^ 64.

(** [#define ROTL64(x, r) (((x) << (r)) | ((x) >> (64 - (r))))] *)
Definition ROTL64 (x r : Z) : Z := Z.lor (shl64 x r) (Z.shiftr x (64 - r)).

(** A [uint8_t] converted to an integer. *)
Definition byte_val (b : byte) : Z := Z.of_N (Byte.to_N b).


(** ** The 5x5 state *)

(** [state[r][c]] as an rvalue and [state[r][c] = v]. *)
Definition ld2 (state : list (list Z)) (r c : Z) : Z :=
  (state !!! Z.to_nat r) !!! Z.to_nat c.

Definition st2 (state : list (list Z)) (r c : Z) (v : Z) : list (list Z) :=
  <[Z.to_nat r := <[Z.to_nat c := v]> (state !!! Z.to_nat r)]> state.

(** Five rows of five lanes: the shape [main] allocates. *)
Definition wf_state (state : list (list Z)) : Prop :=
  length state = 5%nat ∧ Forall (λ row, length row = 5%nat) state.

(** [calloc]: five rows of five zero lanes, and a zeroed byte buffer. *)
Definition calloc_state : list (list Z) := replicate 5 (replicate 5 0).
Definition calloc_bytes (n : Z) : list byte := replicate (Z.to_nat n) x00.

(** ** absorb_input *)

(** The inner loop of [absorb_input]: the eight bytes of lane [i], the
    byte at the highest offset first. *)
Definition input_word (input : list byte) (i : Z) : Z :=
  snd (for_down 7 0
         (λ j input_word,
            let input_word := shl64 input_word 8 in
            Z.lor input_word (byte_val (rd input (i * 8 + j))))
         0).

Definition absorb_input (input : list byte) (state : list (list Z))
    : list (list Z) :=
  snd (for_up 0 (RATE_BYTES ÷ 8)
         (λ i state,
            st2 state (i ÷ 5) (Z.rem i 5)
              (Z.lxor (ld2 state (i ÷ 5) (Z.rem i 5)) (input_word input i)))
         state).

(** ** keccak *)

Definition round_constants : list Z :=
  [ 0x0000000000000001; 0x0000000000008082; 0x800000000000808a;
    0x8000000080008000; 0x000000000000808b; 0x0000000080000001;
    0x8000000080008081; 0x8000000000008009; 0x000000000000008a;
    0x0000000000000088; 0x0000000080008009; 0x000000008000000a;
    0x000000008000808b; 0x800000000000008b; 0x8000000000008089;
    0x8000000000008003; 0x8000000000008002; 0x8000000000000080;
    0x000000000000800a; 0x800000008000000a; 0x8000000080008081;
    0x8000000000008080; 0x0000000080000001; 0x8000000080008008 ].

Definition rho_rotations : list Z :=
  [  1;  3;  6; 10; 15; 21; 28; 36; 45; 55;  2; 14;
    27; 41; 56;  8; 25; 43; 62; 18; 39; 61; 20; 44 ].

Definition pi_shifts : list Z :=
  [ 10; 7;  11; 17; 18; 3; 5;  16; 8;  21; 24; 4;
    15; 23; 19; 13; 12; 2; 20; 14; 22; 9;  6;  1 ].

(** A constant table indexed by a loop counter. *)
Definition tbl (t : list Z) (i : Z) : Z := t !!! Z.to_nat i.

(** The variables of [keccak]: the caller's state, the scratch row on the
    heap and the scratch lane. *)
Record kmem := Kmem {
  k_state : list (list Z);
  k_temp_row : list Z;
  k_temp_lane : Z
}.

Definition set_state (m : kmem) (r c v : Z) : kmem :=
  Kmem (st2 (k_state m) r c v) (k_temp_row m) (k_temp_lane m).
Definition set_temp_row (m : kmem) (i v : Z) : kmem :=
  Kmem (k_state m) (<[Z.to_nat i := v]> (k_temp_row m)) (k_temp_lane m).
Definition set_temp_lane (m : kmem) (v : Z) : kmem :=
  Kmem (k_state m) (k_temp_row m) v.
Definition temp_row (m : kmem) (i : Z) : Z := k_temp_row m !!! Z.to_nat i.

(** theta, first half: the parity of each column. *)
Definition theta_parity (m : kmem) : kmem :=
  snd (for_up 0 5
         (λ i m,
            let m := set_temp_row m i 0 in
            snd (for_up 0 5
                   (λ j m,
                      set_temp_row m i
                        (Z.lxor (temp_row m i) (ld2 (k_state m) j i)))
                   m))
         m).

(** theta, second half: mix the neighbouring parities into each column. *)
Definition theta_mix (m : kmem) : kmem :=
  snd (for_up 0 5
         (λ i m,
            let m :=
              set_temp_lane m
                (Z.lxor (temp_row m (Z.rem (i + 4) 5))
                        (ROTL64 (temp_row m (Z.rem (i + 1) 5)) 1)) in
            snd (for_up 0 5
                   (λ j m,
                      set_state m j i
                        (Z.lxor (ld2 (k_state m) j i) (k_temp_lane m)))
                   m))
         m).

Definition theta_step (m : kmem) : kmem := theta_mix (theta_parity m).

(** rho and pi, with one carried lane. *)
Definition rho_pi_step (m : kmem) : kmem :=
  let m := set_temp_lane m (ld2 (k_state m) 0 1) in
  snd (for_up 0 24
         (λ i m,
            let j := tbl pi_shifts i in
            let m := set_temp_row m 0 (ld2 (k_state m) (j ÷ 5) (Z.rem j 5)) in
            let m :=
              set_state m (j ÷ 5) (Z.rem j 5)
                (ROTL64 (k_temp_lane m) (tbl rho_rotations i)) in
            set_temp_lane m (temp_row m 0))
         m).

(** chi, row by row on a copy of the row. *)
Definition chi_step (m : kmem) : kmem :=
  snd (for_up 0 5
         (λ i m,
            let m :=
              snd (for_up 0 5
                     (λ j m, set_temp_row m j (ld2 (k_state m) i j)) m) in
            snd (for_up 0 5
                   (λ j m,
                      set_state m i j
                        (Z.lxor (ld2 (k_state m) i j)
                           (Z.land (not64 (temp_row m (Z.rem (j + 1) 5)))
                                   (temp_row m (Z.rem (j + 2) 5)))))
                   m))
         m).

(** iota. *)
Definition iota_step (round : Z) (m : kmem) : kmem :=
  set_state m 0 0 (Z.lxor (ld2 (k_state m) 0 0) (tbl round_constants round)).

(** ** printf conversions *)

Definition LF : string := String (ascii_of_nat 10) EmptyString.

Definition digit_of (alphabet : string) (d : Z) : ascii :=
  default "0"%char (String.get (Z.to_nat d) alphabet).

(** The digits of a non-negative [x], most significant first and without
    leading zeros; a 64-bit value has at most 64 digits in any base. *)
Fixpoint digits (fuel : nat) (base : Z) (alphabet : string) (x : Z)
    (acc : string) : string :=
  match fuel with
  | O => acc
  | S fuel' =>
      let acc := String (digit_of alphabet (x mod base)) acc in
      if x / base =? 0 then acc
      else digits fuel' base alphabet (x / base) acc
  end.

(** Left padding with ['0'] up to a minimum field width. *)
Definition zero_pad (width : nat) (s : string) : string :=
  String.string_of_list_ascii (replicate (width - String.length s) "0"%char) +:+ s.

(** [%lx], [%016lx], [%02X] and [%d] (of a non-negative [int]). *)
Definition fmt_lx (x : Z) : string :=
  digits 64 16 "0123456789abcdef" x EmptyString.
Definition fmt_016lx (x : Z) : string := zero_pad 16 (fmt_lx x).
Definition fmt_02X (x : Z) : string :=
  zero_pad 2 (digits 64 16 "0123456789ABCDEF" x EmptyString).
Definition fmt_d (x : Z) : string :=
  digits 64 10 "0123456789" x EmptyString.

(** [(uint8_t) x]: the low eight bits. *)
Definition to_uint8 (x : Z) : Z := x mod 256.

(** ** The diagnostic printers *)

Definition print_state (state : list (list Z)) (out : string) : string :=
  let out :=
    snd (for_up 0 5
           (λ i out,
              snd (for_up 0 5
                     (λ j out,
                        let out :=
                          snd (for_up 0 8
                                 (λ k out,
                                    out +:+ fmt_02X (to_uint8
                                      (Z.shiftr (ld2 state i j) (k * 8)))
                                        +:+ " ")
                                 out) in
                        if Z.rem (i + j) 2 =? 1 then out +:+ LF else out)
                     out))
           out) in
  out +:+ LF.

Definition print_input (input : list byte) (out : string) : string :=
  let out :=
    snd (for_up 0 (RATE_BYTES + CAPACITY_BYTES)
           (λ i out,
              let out := out +:+ fmt_02X (byte_val (rd input i)) +:+ " " in
              if Z.rem (i + 1) 16 =? 0 then out +:+ LF else out)
           out) in
  out +:+ LF.

Definition print_lanes (lanes : list (list Z)) (out : string) : string :=
  snd (for_up 0 5
         (λ i out,
            snd (for_up 0 5
                   (λ j out,
                      out +:+ "  [" +:+ fmt_d j +:+ ", " +:+ fmt_d i
                          +:+ "] = " +:+ fmt_016lx (ld2 lanes i j) +:+ LF)
                   out))
         out).

(** ** keccak, with its diagnostic output *)

(** The body of the round loop. *)
Definition keccak_round (verbose : bool) (round : Z) (s : kmem * string)
    : kmem * string :=
  let '(m, out) := s in
  let out :=
    if verbose then out +:+ "Round #" +:+ fmt_d round +:+ LF else out in
  let m := theta_step m in
  let out :=
    if verbose
    then print_state (k_state m) (out +:+ "After Theta" +:+ LF)
    else out in
  let m := rho_pi_step m in
  let out :=
    if verbose
    then print_state (k_state m) (out +:+ "After Rho and Pi" +:+ LF)
    else out in
  let m := chi_step m in
  let out :=
    if verbose
    then print_state (k_state m) (out +:+ "After Chi" +:+ LF)
    else out in
  let m := iota_step round m in
  let out :=
    if verbose
    then print_state (k_state m) (out +:+ "After Iota" +:+ LF)
    else out in
  (m, out).

(** The scratch row comes zeroed from [calloc]; the scratch lane is not
    initialised in C and is assigned before it is first read. *)
Definition keccak (state : list (list Z)) (verbose : bool) (out : string)
    : list (list Z) * string :=
  let m := Kmem state (replicate 5 0) 0 in
  let '(m, out) :=
    snd (for_up 0 KECCAK_ROUNDS (keccak_round verbose) (m, out)) in
  (k_state m, out).

(** ** main *)

(** [fread(input, 1, n, infile)] on a regular file: the next [n] bytes, or
    all that is left, go to the start of the buffer; the result is the
    count, the buffer and the rest of the file. *)
Definition fread (input : list byte) (n : Z) (infile : list byte)
    : Z * list byte * list byte :=
  let chunk := take (Z.to_nat n) infile in
  (Z.of_nat (length chunk),
   chunk ++ drop (length chunk) input,
   drop (Z.to_nat n) infile).

(** [memset(input, c, n)]. *)
Definition memset (input : list byte) (c : byte) (n : Z) : list byte :=
  replicate (Z.to_nat n) c ++ drop (Z.to_nat n) input.

(** The [while (1)] loop of [main].  Every iteration but the last one
    consumes a full block of the file, so the loop needs at most one
    iteration more than the file has bytes; [None] is fuel run out. *)
Fixpoint main_loop (fuel : nat) (verbose : bool) (infile input : list byte)
    (state : list (list Z)) (bytes_read : Z) (out : string)
    : option (list (list Z) * string) :=
  match fuel with
  | O => None
  | S fuel' =>
      let out :=
        if verbose
        then print_state state
               (out +:+ "About to absorb data" +:+ LF
                    +:+ "State (in bytes)" +:+ LF)
        else out in
      let input := pad_input input bytes_read in
      let out :=
        if verbose
        then print_input input (out +:+ "Data to be absorbed" +:+ LF)
        else out in
      let state := absorb_input input state in
      let out :=
        if verbose
        then print_lanes state
               (print_state state (out +:+ "XOR'd state (in bytes)" +:+ LF)
                  +:+ "XOR'd state (as lanes of integers)" +:+ LF)
        else out in
      let '(state, out) := keccak state verbose out in
      if bytes_read =? RATE_BYTES then
        let input := memset input x00 (RATE_BYTES + CAPACITY_BYTES) in
        let '(bytes_read, input, infile) := fread input RATE_BYTES infile in
        main_loop fuel' verbose infile input state bytes_read out
      else Some (state, out)
  end.

(** The verbose rendering of the hash value: the bytes of the first four
    lanes of row 0, low byte first, in two rows. *)
Definition print_hash_val (state : list (list Z)) (out : string) : string :=
  snd (for_up 0 4
         (λ i out,
            let out :=
              snd (for_up 0 8
                     (λ j out,
                        out +:+ fmt_02X (to_uint8
                          (Z.shiftr (ld2 state 0 i) (j * 8))) +:+ " ")
                     out) in
            if Z.rem (i + 1) 2 =? 0 then out +:+ LF else out)
         out).

(** [main] once the file named by [argv[1]] is open: [infile] is its
    content and [verbose] tells whether [argv[2]] starts with [-v].  The
    result is the state at the final [printf] and the text printed. *)
Definition main (infile : list byte) (verbose : bool)
    : option (list (list Z) * string) :=
  let fuel := S (length infile) in
  let input := calloc_bytes (RATE_BYTES + CAPACITY_BYTES) in
  let state := calloc_state in
  let '(bytes_read, input, infile) := fread input RATE_BYTES infile in
  match main_loop fuel verbose infile input state bytes_read EmptyString with
  | None => None
  | Some (state, out) =>
      let out :=
        if verbose
        then print_hash_val state
               (print_lanes state
                  (print_state state (out +:+ "After permutation" +:+ LF)
                     +:+ "state (as lanes of integers)" +:+ LF)
                  +:+ "Hash val is" +:+ LF)
        else out in
      let out :=
        out +:+ "0x" +:+ fmt_lx (ld2 state 0 0) +:+ fmt_lx (ld2 state 0 1)
            +:+ fmt_lx (ld2 state 0 2) +:+ fmt_lx (ld2 state 0 4) +:+ LF in
      Some (state, out)
  end.

(** * The specification's wording, as definitions

    The definitions of this part are written from the prose of the
    specification, not from the C text; the theorems compare the two. *)

(** A block of bytes as one integer in little-endian order: the first
    byte is the least significant. *)
Fixpoint le_bytes (bs : list byte) : Z :=
  match bs with
  | [] => 0
  | b :: bs' => byte_val b + 256 * le_bytes bs'
  end.

(** The eight bytes at buffer offsets [8i .. 8i+7]. *)
Definition lane_bytes (input : list byte) (i : Z) : list byte :=
  take 8 (drop (Z.to_nat (8 * i)) input).

(** A 5x5 grid given lane by lane. *)
Definition grid (f : Z → Z → Z) : list (list Z) :=
  (λ r, (λ c, f r c) <$> seqZ 0 5) <$> seqZ 0 5.

(** Theta: the parity of a column is the XOR of its five lanes; column [c]
    receives the parity of column [c-1] XOR the parity of column [c+1]
    rotated left by one bit (columns taken modulo 5). *)
Definition column_parity (state : list (list Z)) (c : Z) : Z :=
  foldl Z.lxor 0 ((λ r, ld2 state r c) <$> seqZ 0 5).

Definition theta_spec (state : list (list Z)) : list (list Z) :=
  grid (λ r c,
          Z.lxor (ld2 state r c)
            (Z.lxor (column_parity state ((c - 1) mod 5))
                    (ROTL64 (column_parity state ((c + 1) mod 5)) 1))).

(** Rho and pi with a full scratch copy: step [i] of the fixed tables
    moves the lane found in the old state at the previous step's target
    (lane (0,1) for the first step) to target [pi_shifts[i]], rotated left
    by [rho_rotations[i]].  Lane (0,0) is not a target. *)
Definition rho_pi_source (i : Z) : Z :=
  if i =? 0 then 1 else tbl pi_shifts (i - 1).

Definition rho_pi_spec (state : list (list Z)) : list (list Z) :=
  foldl (λ new i,
           let src := rho_pi_source i in
           let dst := tbl pi_shifts i in
           st2 new (dst / 5) (dst mod 5)
             (ROTL64 (ld2 state (src / 5) (src mod 5)) (tbl rho_rotations i)))
        state (seqZ 0 24).

(** Chi: every lane is XORed with the AND of the complement of the lane
    one column to the right and the lane two columns to the right, all
    three taken from the row as it was before the step. *)
Definition chi_spec (state : list (list Z)) : list (list Z) :=
  grid (λ r c,
          Z.lxor (ld2 state r c)
            (Z.land (not64 (ld2 state r ((c + 1) mod 5)))
                    (ld2 state r ((c + 2) mod 5)))).

(** Iota: the round constant goes into lane (0,0). *)
Definition iota_spec (round : Z) (state : list (list Z)) : list (list Z) :=
  st2 state 0 0 (Z.lxor (ld2 state 0 0) (tbl round_constants round)).

(** One round is theta, rho/pi, chi and iota in this order, and the
    permutation is rounds 0 to 23 in this order.  Both are abbreviations,
    so that statements show the composition itself. *)
Abbreviation round_spec round state :=
  (iota_spec round (chi_spec (rho_pi_spec (theta_spec state)))) (only parsing).

Abbreviation keccak_f_spec state :=
  (foldl (λ st round, round_spec round st) state (seqZ 0 24)) (only parsing).

(** The sponge over full blocks: a full block of the file sits at the
    start of the zeroed 200-byte buffer, is absorbed and is followed by
    the permutation. *)
Fixpoint full_blocks (k : nat) (file : list byte) : list (list byte) :=
  match k with
  | O => []
  | S k' => take 136 file :: full_blocks k' (drop 136 file)
  end.

Definition absorb_permute (block : list byte) (state : list (list Z))
    : list (list Z) :=
  (keccak (absorb_input block state) false EmptyString).1.

Definition absorb_full_blocks (blocks : list (list byte))
    (state : list (list Z)) : list (list Z) :=
  foldl (λ st block, absorb_permute (block ++ replicate 64 x00) st)
    state blocks.

(** The empty block with its padding: [pad_input] with [L = 0] on the
    zeroed buffer. *)
Definition empty_padded_block : list byte :=
  pad_input (calloc_bytes 200) 0.

(** The digest: the first four lanes of the state, positions (0,0) to
    (0,3), each as eight bytes with the least significant first; and its
    rendering, two lowercase hex digits per byte in that order. *)
Definition le_split8 (x : Z) : list Z :=
  (λ k, Z.shiftr x (8 * k) mod 256) <$> seqZ 0 8.

Definition digest_bytes (state : list (list Z)) : list Z :=
  mjoin ((λ c, le_split8 (ld2 state 0 c)) <$> seqZ 0 4).

Definition digest_hex (state : list (list Z)) : string :=
  foldr (λ b s, zero_pad 2 (fmt_lx b) +:+ s) EmptyString (digest_bytes state).

(** * Further parts of the program *)

(** [#define ROTR64(x, r) (((x) >> (r)) | ((x) << (64 - (r))))]; the
    program defines the macro and does not use it. *)
Definition ROTR64 (x r : Z) : Z := Z.lor (Z.shiftr x r) (shl64 x (64 - r)).

(** Every lane holds a [uint64_t] value. *)
Definition lanes64 (state : list (list Z)) : Prop :=
  Forall (Forall (λ x, 0 ≤ x < 2 ^ 64)) state.

(** Lane [j] in absorption order, [state[j / 5][j % 5]]. *)
Definition lane_at (state : list (list Z)) (j : Z) : Z :=
  ld2 state (j ÷ 5) (Z.rem j 5).

(** The bytes [pad_input] puts behind the data when [q] bytes of the rate
    are free: [0x86] alone, or [0x06], zeros and [0x80]. *)
Definition padding (q : nat) : list byte :=
  match q with
  | O => []
  | 1%nat => [x86]
  | S (S n) => [x06] ++ replicate n x00 ++ [x80]
  end.

(** The file followed by the padding that fills its last block. *)
Definition padded_message (file : list byte) : list byte :=
  file ++ padding (136 - length file `mod` 136).

(** Reading a padded message backwards: the last byte is [0x86], or it is
    [0x80] preceded by zeros and [0x06]; what is in front is the data. *)
Fixpoint strip_zeros (l : list byte) : list byte :=
  match l with
  | b :: l' => if Byte.eqb b x00 then strip_zeros l' else l
  | [] => []
  end.

Definition unpad (msg : list byte) : option (list byte) :=
  match reverse msg with
  | b :: r =>
      if Byte.eqb b x86 then Some (reverse r)
      else if Byte.eqb b x80 then
        match strip_zeros r with
        | c :: r' => if Byte.eqb c x06 then Some (reverse r') else None
        | [] => None
        end
      else None
  | [] => None
  end.

(** [print_3d]: the five rows, five lanes each under [%016lx]; the program
    keeps the function and does not call it. *)
Definition print_3d (state : list (list Z)) (out : string) : string :=
  snd (for_up 0 5
         (λ i out,
            out +:+ "row " +:+ fmt_d i +:+ ": "
                +:+ fmt_016lx (ld2 state i 0) +:+ " "
                +:+ fmt_016lx (ld2 state i 1) +:+ " "
                +:+ fmt_016lx (ld2 state i 2) +:+ " "
                +:+ fmt_016lx (ld2 state i 3) +:+ " "
                +:+ fmt_016lx (ld2 state i 4) +:+ LF)
         out).

(** [argv[k][j]] of a C string: the character, or the terminating NUL. *)
Definition arg_char (s : string) (j : nat) : ascii :=
  default zero (String.get j s).

(** The whole of [main], from [argc] and [argv]: [fopen] is a lookup in
    [files] ([None] when the file cannot be opened).  The result is the
    return value of [main] and the text printed; a [main] that reaches its
    closing brace returns 0. *)
Definition main_argv (files : string → option (list byte))
    (argv : list string) : option (Z * string) :=
  let argc := Z.of_nat (length argv) in
  if argc <? 2 then
    Some (-1, "USAGE: ./sha3 <file_to_hash>" +:+ LF)
  else
    let path := default EmptyString (argv !! 1%nat) in
    match files path with
    | None => Some (-1, "ERROR: could not read file " +:+ path +:+ LF)
    | Some infile =>
        let arg2 := default EmptyString (argv !! 2%nat) in
        let verbose :=
          (2 <? argc) && Ascii.eqb (arg_char arg2 0) "-"
                      && Ascii.eqb (arg_char arg2 1) "v" in
        match main infile verbose with
        | None => None
        | Some (_, out) => Some (0, out)
        end
    end.

(** The line of the final [printf], and the text of the verbose hash
    value: 16 bytes to a row, each byte as two uppercase hex digits and a
    space. *)
Definition final_line (state : list (list Z)) : string :=
  "0x" +:+ fmt_lx (ld2 state 0 0) +:+ fmt_lx (ld2 state 0 1)
       +:+ fmt_lx (ld2 state 0 2) +:+ fmt_lx (ld2 state 0 4) +:+ LF.

Definition hex_row (bytes : list Z) : string :=
  foldr (λ b s, fmt_02X b +:+ " " +:+ s) LF bytes.

Definition hash_val_text (bytes : list Z) : string :=
  hex_row (take 16 bytes) +:+ hex_row (drop 16 bytes).

(** The number of hex digits [%lx] prints for a non-negative value. *)
Definition hex_digits_count (x : Z) : nat := S (Z.to_nat (Z.log2 x / 4)).

(** The walk over the lanes by which Keccak defines rho and pi: it starts
    at column 1 of row 0; the lane at column [x] of row [y] goes to column
    [y] of row [2x + 3y] modulo 5, and the lane moved at step [t] is
    rotated by [(t + 1)(t + 2) / 2] modulo 64.  An entry is (source row,
    source column, target row, target column, rotation). *)
Fixpoint rho_pi_walk (n : nat) (x y t : Z) : list (Z * Z * Z * Z * Z) :=
  match n with
  | O => []
  | S n' =>
      let x' := y in
      let y' := (2 * x + 3 * y) mod 5 in
      (y, x, y', x', ((t + 1) * (t + 2) / 2) mod 64)
        :: rho_pi_walk n' x' y' (t + 1)
  end.

(** The generator of the round constants in Keccak: an 8-bit shift
    register with feedback 0x71, started at 1; its output bits, seven per
    round, go to bit positions 0, 1, 3, 7, 15, 31 and 63 of the
    constant. *)
Definition lfsr_step (s : Z) : Z :=
  if Z.testbit s 7 then Z.lxor (Z.shiftl s 1) 0x71 mod 256
  else Z.shiftl s 1 mod 256.

Fixpoint lfsr_bits (n : nat) (s : Z) : list bool :=
  match n with
  | O => []
  | S n' => Z.testbit s 0 :: lfsr_bits n' (lfsr_step s)
  end.

Definition lfsr_round_constant (round : nat) : Z :=
  foldr (λ '(j, b) c, if b : bool then Z.lor (Z.shiftl 1 (2 ^ j - 1)) c else c)
    0 (zip (seqZ 0 7) (take 7 (drop (7 * round) (lfsr_bits 168 1)))).

(** The state as the 200 bytes of its lanes, row by row, each lane with
    its least significant byte first. *)
Definition byte_of_Z (z : Z) : byte :=
  default x00 (Byte.of_N (Z.to_N (z mod 256))).

Definition state_bytes (state : list (list Z)) : list byte :=
  mjoin ((λ i,
            mjoin ((λ j,
                      (λ k, byte_of_Z (Z.shiftr (ld2 state i j) (8 * k)))
                        <$> seqZ 0 8)
                     <$> seqZ 0 5))
           <$> seqZ 0 5).

(** * primes.c: shallow embedding

    The program parses a number with GMP, tests it and its half for
    primality with GMP's probabilistic test, and lists the full-period
    generators among 1..20.  GMP's integers are [Z]; [mpz_powm] is
    [base ^ exp mod m]; [mpz_out_str] in base 10 is the decimal text.
    [mpz_set_str] and [mpz_probab_prime_p] are parameters of the model:
    the first gives the parsed number or [None] for GMP's error result,
    the second GMP's answer 0 (composite), 1 (probably prime) or 2
    (prime). *)

Module Primes.

Definition MILLER_RABIN_REPS : Z := 32.

(** [mpz_out_str(stdout, 10, x)]. *)
Definition fmt_mpz (x : Z) : string :=
  if x <? 0
  then "-" +:+ digits (S (Z.to_nat (Z.log2 (- x)))) 10 "0123456789" (- x)
                 EmptyString
  else digits (S (Z.to_nat (Z.log2 x))) 10 "0123456789" x EmptyString.

(** The loop over the candidates 1..20; a [continue] leaves the output as
    it is. *)
Definition generator_loop (n q : Z) (out : string) : string :=
  snd (c_for 20 (λ i, i <=? 20) Z.succ
         (λ i out,
            let temp1 := i in
            let temp2 := temp1 ^ 1 mod n in
            if temp2 =? 1 then out
            else
              let temp2 := temp1 ^ 2 mod n in
              if temp2 =? 1 then out
              else
                let temp2 := temp1 ^ q mod n in
                if temp2 =? 1 then out
                else out +:+ fmt_d i +:+ " is a full-period generator" +:+ LF)
         1 out).

(** [main]: the return value and the text printed.  [mpz_divexact_ui] is
    defined only for an exact division; [None] stands for a run that
    reaches it with an even [n]. *)
Definition main (set_str : string → option Z)
    (probab_prime_p : Z → Z → Z) (argv : list string)
    : option (Z * string) :=
  let argc := Z.of_nat (length argv) in
  if argc <? 2 then
    Some (-1, "USAGE: " +:+ default EmptyString (argv !! 0%nat)
                        +:+ " <number>" +:+ LF)
  else
    match set_str (default EmptyString (argv !! 1%nat)) with
    | None => Some (-1, "error reading input" +:+ LF)
    | Some n =>
        if probab_prime_p n MILLER_RABIN_REPS =? 0 then
          Some (0, "input is not prime" +:+ LF)
        else
          let out := "input is prime" +:+ LF in
          if n =? 2 then
            Some (0, out +:+ "input is not a safe prime" +:+ LF)
          else
            let temp1 := n - 1 in
            if temp1 mod 2 =? 0 then
              let q := temp1 / 2 in
              if probab_prime_p q MILLER_RABIN_REPS =? 0 then
                Some (0, out +:+ "input is not a safe prime" +:+ LF)
              else
                let out :=
                  out +:+ "input is a safe prime. its Sophie Germain prime is:"
                      +:+ LF +:+ fmt_mpz q +:+ LF in
                Some (0, generator_loop n q out)
            else None
    end.

End Primes.

(** What the program calls a full-period generator modulo [n]: an element
    of multiplicative order exactly [n - 1]. *)
Definition full_period_generator (n g : Z) : Prop :=
  g ^ (n - 1) mod n = 1 ∧ ∀ k, 0 < k < n - 1 → g ^ k mod n ≠ 1.

(** The three tests of the loop, and the lines it prints for a list of
    candidates. *)
Definition passes_tests (n q i : Z) : bool :=
  negb (i ^ 1 mod n =? 1) && negb (i ^ 2 mod n =? 1)
  && negb (i ^ q mod n =? 1).

Definition generator_lines (l : list Z) : string :=
  foldr (λ i s, fmt_d i +:+ " is a full-period generator" +:+ LF +:+ s)
    EmptyString l.

(** * Proofs *)

(** ** Loops *)

Section Loops.
Context {S : Type}.
Implicit Types (body : Z → S → S) (s : S).

Lemma for_up_done lo hi body s :
  hi ≤ lo → for_up lo hi body s = (lo, s).
Proof.
  intros Hle. unfold for_up.
  replace (Z.to_nat (hi - lo)) with 0%nat by lia. reflexivity.
Qed.

Lemma for_up_step lo hi body s :
  lo < hi → for_up lo hi body s = for_up (lo + 1) hi body (body lo s).
Proof.
  intros Hlt. unfold for_up.
  replace (Z.to_nat (hi - lo)) with (Datatypes.S (Z.to_nat (hi - (lo + 1))))
    by lia.
  simpl. destruct (Z.ltb_spec lo hi); [|lia]. reflexivity.
Qed.

(** The invariant rule.  The fuel of [for_up] is exact: the loop stops
    because its condition fails, with the counter at [hi] (or at [lo]
    when the loop is not entered). *)
Lemma for_up_ind (P : Z → S → Prop) lo hi body s :
  P lo s →
  (∀ i s, lo ≤ i < hi → P i s → P (i + 1) (body i s)) →
  (for_up lo hi body s).1 = Z.max lo hi ∧
  P (Z.max lo hi) (for_up lo hi body s).2.
Proof.
  remember (Z.to_nat (hi - lo)) as n eqn:Hn.
  revert lo s Hn. induction n as [|n IH]; intros lo s Hn H0 Hstep.
  - rewrite for_up_done by lia. simpl.
    replace (Z.max lo hi) with lo by lia. done.
  - rewrite for_up_step by lia.
    replace (Z.max lo hi) with (Z.max (lo + 1) hi) by lia.
    apply IH; [lia | apply Hstep; [lia | done] |].
    intros i s' Hi. apply Hstep. lia.
Qed.

Lemma for_down_ind (P : Z → S → Prop) hi lo body s :
  lo - 1 ≤ hi →
  P hi s →
  (∀ j s, lo ≤ j ≤ hi → P j s → P (j - 1) (body j s)) →
  P (lo - 1) (for_down hi lo body s).2.
Proof.
  unfold for_down.
  remember (Z.to_nat (hi - lo + 1)) as n eqn:Hn.
  revert hi s Hn. induction n as [|n IH]; intros hi s Hn Hle H0 Hstep.
  - simpl. replace (lo - 1) with hi by lia. done.
  - simpl. destruct (Z.geb_spec hi lo); [|lia].
    apply IH; [lia | lia | |].
    + replace (Z.pred hi) with (hi - 1) by lia. apply Hstep; [lia | done].
    + intros j s' Hj. apply Hstep. lia.
Qed.
End Loops.

(** Two loops whose bodies keep a projection of their variables equal end
    with that projection equal. *)
Lemma for_up_proj {S1 S2 T : Type} (π1 : S1 → T) (π2 : S2 → T) lo hi
    (body1 : Z → S1 → S1) (body2 : Z → S2 → S2) s1 s2 :
  π1 s1 = π2 s2 →
  (∀ i s1 s2, π1 s1 = π2 s2 → π1 (body1 i s1) = π2 (body2 i s2)) →
  π1 (for_up lo hi body1 s1).2 = π2 (for_up lo hi body2 s2).2.
Proof.
  intros H0 Hstep. unfold for_up.
  generalize (Z.to_nat (hi - lo)) as n. intros n.
  revert lo s1 s2 H0. induction n as [|n IH]; intros lo s1 s2 H0; simpl.
  - done.
  - destruct (lo <? hi); [|done]. apply IH. by apply Hstep.
Qed.

(** ** Buffer access *)

Lemma length_wr input k b : length (wr input k b) = length input.
Proof. unfold wr. destruct (k <? 0); [done|]. apply length_insert. Qed.

Lemma lookup_wr_eq input k b :
  0 ≤ k → (Z.to_nat k < length input)%nat →
  wr input k b !! Z.to_nat k = Some b.
Proof.
  intros Hk Hlen. unfold wr. destruct (Z.ltb_spec k 0); [lia|].
  by apply list_lookup_insert_eq.
Qed.

Lemma lookup_wr_ne input k b (j : nat) :
  k ≠ Z.of_nat j → wr input k b !! j = input !! j.
Proof.
  intros Hne. unfold wr. destruct (Z.ltb_spec k 0); [done|].
  apply list_lookup_insert_ne. lia.
Qed.

(** ** pad_input *)

(** The zero-filling loop of the third branch, started at offset
    [input_len + 1]: it stops with the counter at [max 1 n], it leaves
    every offset outside [input_len + 1 .. input_len + n - 1] alone and
    it puts [0x00] at the offsets inside. *)
Lemma pad_zero_loop (input : list byte) (input_len n : Z) :
  0 ≤ input_len →
  let r := for_up 1 n (λ i input, wr input (input_len + i) x00) input in
  r.1 = Z.max 1 n ∧
  length r.2 = length input ∧
  (∀ j : nat,
     ¬ (input_len + 1 ≤ Z.of_nat j < input_len + n) → r.2 !! j = input !! j) ∧
  (∀ j : nat,
     input_len + 1 ≤ Z.of_nat j < input_len + n → (j < length input)%nat →
     r.2 !! j = Some x00).
Proof.
  intros HL r. subst r.
  pose (P := λ (i : Z) (buf : list byte),
    length buf = length input ∧
    (∀ j : nat, ¬ (input_len + 1 ≤ Z.of_nat j < input_len + i) →
                buf !! j = input !! j) ∧
    (∀ j : nat, input_len + 1 ≤ Z.of_nat j < input_len + i →
                (j < length input)%nat → buf !! j = Some x00)).
  destruct (for_up_ind P 1 n (λ i input, wr input (input_len + i) x00) input)
    as [Hfst HP].
  - unfold P. split; [done|]. split; [done|]. intros j Hj. lia.
  - intros i buf Hi (Hlen & Hout & Hin). unfold P. split; [|split].
    + by rewrite length_wr.
    + intros j Hj. rewrite lookup_wr_ne by lia. apply Hout. lia.
    + intros j Hj Hlt. destruct (decide (Z.of_nat j = input_len + i)) as [Heq|Hne].
      * replace j with (Z.to_nat (input_len + i)) by lia.
        apply lookup_wr_eq; [lia|]. rewrite Hlen. lia.
      * rewrite lookup_wr_ne by lia. apply Hin; [lia | done].
  - split; [done|]. destruct HP as (Hlen & Hout & Hin).
    split; [done|]. split.
    + intros j Hj. apply Hout. lia.
    + intros j Hj Hlt. destruct (Z.max_spec 1 n) as [[? Hm]|[? Hm]];
        apply Hin; lia || done.
Qed.

(** What [pad_input] does below the rate, branch by branch. *)
Lemma pad_input_below (input : list byte) (input_len : Z) :
  0 ≤ input_len < 136 →
  ∃ i buf,
    pad_input input input_len =
      (if 136 - input_len =? 1 then wr input input_len x86
       else if 136 - input_len =? 2
            then wr (wr input input_len x06) (input_len + 1) x80
            else wr buf (input_len + i + 1) x80) ∧
    (2 < 136 - input_len →
     i = 134 - input_len ∧
     length buf = length input ∧
     (∀ j : nat, ¬ (input_len ≤ Z.of_nat j < 134) → buf !! j = input !! j) ∧
     ((Z.to_nat input_len < length input)%nat →
      buf !! Z.to_nat input_len = Some x06) ∧
     (∀ j : nat, input_len + 1 ≤ Z.of_nat j < 134 → (j < length input)%nat →
                 buf !! j = Some x00)).
Proof.
  intros HL. unfold pad_input. change RATE_BYTES with 136.
  destruct (Z.ltb_spec input_len 136); [|lia].
  rewrite Z.rem_small by lia.
  destruct (pad_zero_loop (wr input input_len x06) input_len
              (136 - input_len - 2)) as (Hi & Hlen & Hout & Hin); [lia|].
  destruct (for_up 1 (136 - input_len - 2) _ _) as [i buf]. simpl in *.
  exists i, buf. split; [done|]. intros Hq.
  rewrite length_wr in Hlen, Hin.
  split; [lia|]. split; [done|]. split; [|split].
  - intros j Hj. rewrite Hout by lia. apply lookup_wr_ne. lia.
  - intros Hlt. rewrite Hout by lia. apply lookup_wr_eq; [lia | done].
  - intros j Hj Hlt. apply Hin; [lia | done].
Qed.

(** C4: for every [L] from 0 to 135, on a block whose bytes at offsets
    [L] to 135 are zero, [pad_input] with [input_len = L] gives, with
    [q = 136 - L]: for [q = 1] the byte 0x86 at offset [L]; for [q = 2]
    the byte 0x06 at offset [L] and 0x80 at offset [L+1]; for [q > 2]
    the byte 0x06 at offset [L], zero bytes at offsets [L+1] to [L+q-2]
    and 0x80 at offset [L+q-1], which is offset 135. *)
Theorem pad_input_suffix (input : list byte) (L : Z) :
  0 ≤ L ≤ 135 →
  (∀ k : nat, L ≤ Z.of_nat k ≤ 135 → input !! k = Some x00) →
  let q := 136 - L in
  let r := pad_input input L in
  (q = 1 → r !! Z.to_nat L = Some x86) ∧
  (q = 2 → r !! Z.to_nat L = Some x06 ∧ r !! Z.to_nat (L + 1) = Some x80) ∧
  (q > 2 →
   r !! Z.to_nat L = Some x06 ∧
   (∀ k : nat, L + 1 ≤ Z.of_nat k ≤ L + q - 2 → r !! k = Some x00) ∧
   r !! Z.to_nat (L + q - 1) = Some x80).
Proof.
  intros HL Hzero q r.
  assert (Hlen : (135 < length input)%nat).
  { apply (lookup_lt_Some input 135 x00), Hzero. lia. }
  destruct (pad_input_below input L) as (i & buf & Hr & Hbuf); [lia|].
  fold r in Hr. subst q. split; [|split].
  - intros Hq. rewrite Hr. destruct (Z.eqb_spec (136 - L) 1); [|lia].
    apply lookup_wr_eq; lia.
  - intros Hq. rewrite Hr. destruct (Z.eqb_spec (136 - L) 1); [lia|].
    destruct (Z.eqb_spec (136 - L) 2); [|lia]. split.
    + rewrite lookup_wr_ne by lia. apply lookup_wr_eq; lia.
    + apply lookup_wr_eq; [lia|]. rewrite length_wr. lia.
  - intros Hq. rewrite Hr. destruct (Z.eqb_spec (136 - L) 1); [lia|].
    destruct (Z.eqb_spec (136 - L) 2); [lia|].
    destruct Hbuf as (-> & Hlb & Hout & Hat & Hin); [lia|].
    split; [|split].
    + rewrite lookup_wr_ne by lia. apply Hat. lia.
    + intros k Hk. rewrite lookup_wr_ne by lia.
      destruct (decide (Z.of_nat k = 134)) as [Hk'|Hk'].
      * rewrite Hout by lia. apply Hzero. lia.
      * apply Hin; lia.
    + replace (L + (134 - L) + 1) with (L + (136 - L) - 1) by lia.
      apply lookup_wr_eq; [lia|]. rewrite Hlb. lia.
Qed.

Lemma pad_input_suffix_witness :
  0 ≤ 133 ≤ 135 ∧
  (∀ k : nat, 133 ≤ Z.of_nat k ≤ 135 → calloc_bytes 200 !! k = Some x00) ∧
  pad_input (calloc_bytes 200) 133 !! 133%nat = Some x06 ∧
  pad_input (calloc_bytes 200) 133 !! 134%nat = Some x00 ∧
  pad_input (calloc_bytes 200) 133 !! 135%nat = Some x80.
Proof.
  assert (Hz : ∀ k : nat, 133 ≤ Z.of_nat k ≤ 135 →
                          calloc_bytes 200 !! k = Some x00).
  { intros k Hk.
    assert (k = 133 ∨ k = 134 ∨ k = 135)%nat as [-> | [-> | ->]] by lia;
      reflexivity. }
  split; [lia|]. split; [exact Hz|].
  destruct (pad_input_suffix (calloc_bytes 200) 133 ltac:(lia) Hz)
    as (_ & _ & H3).
  destruct H3 as (Ha & Hb & Hc); [lia|].
  split; [exact Ha|]. split; [apply Hb; lia | exact Hc].
Defined.

(** C10: for every [input_len] from 0 to 136, [pad_input] keeps the
    length of the buffer and writes only to offsets [input_len] to 135:
    the bytes before [input_len] and the bytes from offset 136 on are
    unchanged; with [input_len = 136] the whole buffer is unchanged. *)
Theorem pad_input_frame (input : list byte) (input_len : Z) :
  0 ≤ input_len ≤ 136 →
  length (pad_input input input_len) = length input ∧
  (∀ k : nat, Z.of_nat k < input_len ∨ 135 < Z.of_nat k →
              pad_input input input_len !! k = input !! k) ∧
  (input_len = 136 → pad_input input input_len = input).
Proof.
  intros HL.
  assert (H136 : pad_input input 136 = input) by reflexivity.
  destruct (decide (input_len = 136)) as [->|Hne].
  { rewrite H136. done. }
  destruct (pad_input_below input input_len) as (i & buf & Hr & Hbuf); [lia|].
  rewrite Hr. split; [|split; [|done]].
  - destruct (Z.eqb_spec (136 - input_len) 1); [by rewrite length_wr|].
    destruct (Z.eqb_spec (136 - input_len) 2); [by rewrite !length_wr|].
    destruct Hbuf as (_ & Hlb & _); [lia|]. by rewrite length_wr.
  - intros k Hk.
    destruct (Z.eqb_spec (136 - input_len) 1); [apply lookup_wr_ne; lia|].
    destruct (Z.eqb_spec (136 - input_len) 2).
    { rewrite !lookup_wr_ne by lia. done. }
    destruct Hbuf as (-> & _ & Hout & _); [lia|].
    rewrite lookup_wr_ne by lia. apply Hout. lia.
Qed.

Lemma pad_input_frame_witness :
  0 ≤ 0 ≤ 136 ∧
  length (pad_input (calloc_bytes 200) 0) = 200%nat ∧
  pad_input (calloc_bytes 200) 0 !! 136%nat = Some x00.
Proof.
  split; [lia|].
  destruct (pad_input_frame (calloc_bytes 200) 0 ltac:(lia)) as (Hl & Hk & _).
  split; [exact Hl|]. rewrite Hk by lia. reflexivity.
Defined.

(** ** The shape of the state *)

Lemma wf_state_grid (state : list (list Z)) :
  wf_state state →
  ∃ a0 a1 a2 a3 a4 b0 b1 b2 b3 b4 c0 c1 c2 c3 c4
    d0 d1 d2 d3 d4 e0 e1 e2 e3 e4,
    state = [ [a0; a1; a2; a3; a4]; [b0; b1; b2; b3; b4];
              [c0; c1; c2; c3; c4]; [d0; d1; d2; d3; d4];
              [e0; e1; e2; e3; e4] ].
Proof.
  intros [Hlen Hrows].
  do 6 (destruct state as [|? state]; try discriminate Hlen).
  repeat match goal with
         | H : Forall _ (_ :: _) |- _ => apply Forall_cons_1 in H as [? H]
         end.
  repeat match goal with
         | H : length ?row = 5%nat |- _ =>
             do 6 (destruct row as [|? row]; try discriminate H); clear H
         end.
  repeat eexists.
Qed.

Lemma grid_wf (f : Z → Z → Z) : wf_state (grid f).
Proof. split; [done|]. repeat constructor. Qed.

Ltac grid_of H :=
  apply wf_state_grid in H;
  destruct H as (?a & ?a & ?a & ?a & ?a & ?b & ?b & ?b & ?b & ?b &
                 ?c & ?c & ?c & ?c & ?c & ?d & ?d & ?d & ?d & ?d &
                 ?e & ?e & ?e & ?e & ?e & ->).

(** A counter in a known range is one of finitely many constants. *)
Ltac counter_cases i n :=
  let k := fresh "k" in
  let Hk := fresh "Hk" in
  assert (∃ k : nat, i = Z.of_nat k ∧ (k < n)%nat) as (k & -> & Hk)
    by (exists (Z.to_nat i); lia);
  repeat (destruct k as [|k]; [clear Hk | try (exfalso; lia)]).

(** ** absorb_input *)

Lemma absorb_input_grid (input : list byte)
    a0 a1 a2 a3 a4 b0 b1 b2 b3 b4 c0 c1 c2 c3 c4
    d0 d1 d2 d3 d4 e0 e1 e2 e3 e4 :
  absorb_input input
    [ [a0; a1; a2; a3; a4]; [b0; b1; b2; b3; b4]; [c0; c1; c2; c3; c4];
      [d0; d1; d2; d3; d4]; [e0; e1; e2; e3; e4] ] =
  [ [ Z.lxor a0 (input_word input 0); Z.lxor a1 (input_word input 1);
      Z.lxor a2 (input_word input 2); Z.lxor a3 (input_word input 3);
      Z.lxor a4 (input_word input 4) ];
    [ Z.lxor b0 (input_word input 5); Z.lxor b1 (input_word input 6);
      Z.lxor b2 (input_word input 7); Z.lxor b3 (input_word input 8);
      Z.lxor b4 (input_word input 9) ];
    [ Z.lxor c0 (input_word input 10); Z.lxor c1 (input_word input 11);
      Z.lxor c2 (input_word input 12); Z.lxor c3 (input_word input 13);
      Z.lxor c4 (input_word input 14) ];
    [ Z.lxor d0 (input_word input 15); Z.lxor d1 (input_word input 16);
      d2; d3; d4 ];
    [ e0; e1; e2; e3; e4 ] ].
Proof. reflexivity. Qed.

Lemma absorb_input_wf input state :
  wf_state state → wf_state (absorb_input input state).
Proof.
  intros Hwf. grid_of Hwf. rewrite absorb_input_grid.
  split; [done|]. repeat constructor.
Qed.

(** C7: for every input block and every state, [absorb_input] leaves the
    eight capacity lanes, lane indices 17 to 24 in absorption order,
    exactly as they were. *)
Theorem absorb_input_capacity (input : list byte) (state : list (list Z))
    (i : Z) :
  wf_state state → 17 ≤ i ≤ 24 →
  ld2 (absorb_input input state) (i ÷ 5) (Z.rem i 5)
  = ld2 state (i ÷ 5) (Z.rem i 5).
Proof.
  intros Hwf Hi. grid_of Hwf. rewrite absorb_input_grid.
  counter_cases i 25%nat; try lia; reflexivity.
Qed.

Lemma absorb_input_capacity_witness :
  wf_state calloc_state ∧ 17 ≤ 17 ≤ 24 ∧
  ld2 (absorb_input empty_padded_block calloc_state) (17 ÷ 5) (Z.rem 17 5)
  = ld2 calloc_state (17 ÷ 5) (Z.rem 17 5).
Proof.
  assert (Hwf : wf_state calloc_state)
    by (split; [reflexivity | repeat constructor]).
  split; [exact Hwf|]. split; [lia|].
  apply (absorb_input_capacity empty_padded_block calloc_state 17 Hwf).
  lia.
Defined.

(** *** The lane read by the inner loop *)

Lemma byte_val_range b : 0 ≤ byte_val b < 256.
Proof.
  unfold byte_val. pose proof (Byte.to_N_bounded b) as Hb. lia.
Qed.

Lemma le_bytes_range bs : 0 ≤ le_bytes bs < 2 ^ (8 * Z.of_nat (length bs)).
Proof.
  induction bs as [|b bs IH]; simpl le_bytes; simpl length.
  - simpl. lia.
  - pose proof (byte_val_range b).
    replace (8 * Z.of_nat (S (length bs)))
      with (8 + 8 * Z.of_nat (length bs)) by lia.
    rewrite Z.pow_add_r by lia. change (2 ^ 8) with 256. nia.
Qed.

(** Shifting a value of at most 56 bits by one byte loses nothing, and
    the byte ORed in lands on zero bits. *)
Lemma lor_shl64_byte w b :
  0 ≤ w < 2 ^ 56 → 0 ≤ b < 256 → Z.lor (shl64 w 8) b = b + 256 * w.
Proof.
  intros Hw Hb. unfold shl64. rewrite Z.shiftl_mul_pow2 by lia.
  change (2 ^ 8) with 256.
  rewrite Z.mod_small by (change (2 ^ 64) with (256 * 2 ^ 56); nia).
  rewrite Z.add_comm, (Z.mul_comm 256 w). symmetry.
  apply Z.add_nocarry_lor. apply Z.bits_inj'. intros n Hn.
  rewrite Z.land_spec, Z.bits_0.
  destruct (Z.lt_ge_cases n 8) as [Hlt|Hge].
  - change 256 with (2 ^ 8). rewrite Z.mul_pow2_bits_low by lia. done.
  - rewrite (Z.bits_above_log2 b n), andb_false_r; [done | lia |].
    destruct (Z.eq_dec b 0) as [->|Hb0]; [simpl; lia|].
    apply Z.lt_le_trans with 8; [|done].
    apply Z.log2_lt_pow2; [lia|]. change (2 ^ 8) with 256. lia.
Qed.

Lemma foldr_shift_or_le_bytes bs :
  (length bs ≤ 8)%nat →
  foldr (λ b w, Z.lor (shl64 w 8) (byte_val b)) 0 bs = le_bytes bs.
Proof.
  induction bs as [|b bs IH]; intros Hlen; simpl in *; [done|].
  rewrite IH by lia. apply lor_shl64_byte; [|apply byte_val_range].
  pose proof (le_bytes_range bs) as Hr. split; [lia|].
  apply Z.lt_le_trans with (2 ^ (8 * Z.of_nat (length bs))); [lia|].
  apply Z.pow_le_mono_r; lia.
Qed.

Lemma rd_drop (input : list byte) (n j : nat) :
  rd input (Z.of_nat n + Z.of_nat j) = default x00 (drop n input !! j).
Proof.
  unfold rd. destruct (Z.ltb_spec (Z.of_nat n + Z.of_nat j) 0); [lia|].
  rewrite lookup_drop. do 2 f_equal. lia.
Qed.

Lemma lane_bytes_rd (input : list byte) (i : Z) :
  0 ≤ i → (Z.to_nat (8 * i) + 8 ≤ length input)%nat →
  lane_bytes input i = (λ j, rd input (i * 8 + j)) <$> seqZ 0 8.
Proof.
  intros Hi Hlen. unfold lane_bytes.
  assert (E : ∀ j : nat, rd input (i * 8 + Z.of_nat j)
                         = default x00 (drop (Z.to_nat (8 * i)) input !! j)).
  { intros j. rewrite <- rd_drop. f_equal. lia. }
  change (seqZ 0 8) with (Z.of_nat <$> [0; 1; 2; 3; 4; 5; 6; 7]%nat).
  rewrite <- list_fmap_compose.
  rewrite (list_fmap_ext _ (λ j : nat, default x00 (drop (Z.to_nat (8 * i)) input !! j))
             [0; 1; 2; 3; 4; 5; 6; 7]%nat) by (intros ? j _; apply E).
  assert (Hd : (8 ≤ length (drop (Z.to_nat (8 * i)) input))%nat)
    by (rewrite length_drop; lia).
  destruct (drop (Z.to_nat (8 * i)) input) as [|x0 [|x1 [|x2 [|x3 [|x4 [|x5 [|x6 [|x7 l]]]]]]]];
    simpl in Hd; try lia.
  reflexivity.
Qed.

(** The inner loop, unrolled: offset [8i+7] is read first and ends up in
    the most significant byte. *)
Lemma input_word_foldr (input : list byte) (i : Z) :
  input_word input i
  = foldr (λ j w, Z.lor (shl64 w 8) (byte_val (rd input (i * 8 + j)))) 0
      (seqZ 0 8).
Proof.
  unfold input_word.
  pose (f := λ j, byte_val (rd input (i * 8 + j))).
  change ((for_down 7 0 (λ j w, Z.lor (shl64 w 8) (f j)) 0).2
          = foldr (λ j w, Z.lor (shl64 w 8) (f j)) 0 (seqZ 0 8)).
  clearbody f. cbv -[Z.lor shl64]. reflexivity.
Qed.

Lemma input_word_le_bytes (input : list byte) (i : Z) :
  0 ≤ i → (Z.to_nat (8 * i) + 8 ≤ length input)%nat →
  input_word input i = le_bytes (lane_bytes input i).
Proof.
  intros Hi Hlen. rewrite lane_bytes_rd by done.
  rewrite <- foldr_shift_or_le_bytes by done.
  rewrite foldr_fmap. apply input_word_foldr.
Qed.

(** C6: for every block of at least 136 bytes and every state,
    [absorb_input] XORs into the lane at [(row = i / 5, col = i % 5)],
    for each lane index [i] from 0 to 16, the eight bytes at offsets [8i]
    to [8i+7] read as a little-endian integer (the byte at [8i] is the
    least significant). *)
Theorem absorb_input_rate_lanes (input : list byte)
    (state : list (list Z)) (i : Z) :
  wf_state state → (136 ≤ length input)%nat → 0 ≤ i ≤ 16 →
  ld2 (absorb_input input state) (i ÷ 5) (Z.rem i 5)
  = Z.lxor (ld2 state (i ÷ 5) (Z.rem i 5)) (le_bytes (lane_bytes input i)).
Proof.
  intros Hwf Hlen Hi. rewrite <- input_word_le_bytes by lia.
  grid_of Hwf. rewrite absorb_input_grid.
  counter_cases i 17%nat; reflexivity.
Qed.

Lemma absorb_input_rate_lanes_witness :
  wf_state calloc_state ∧ (136 ≤ length empty_padded_block)%nat ∧
  0 ≤ 16 ≤ 16 ∧
  ld2 (absorb_input empty_padded_block calloc_state) (16 ÷ 5) (Z.rem 16 5)
  = Z.lxor (ld2 calloc_state (16 ÷ 5) (Z.rem 16 5))
      (le_bytes (lane_bytes empty_padded_block 16)).
Proof.
  assert (Hwf : wf_state calloc_state)
    by (split; [reflexivity | repeat constructor]).
  assert (Hlen : (136 ≤ length empty_padded_block)%nat)
    by (vm_compute; lia).
  split; [exact Hwf|]. split; [exact Hlen|]. split; [lia|].
  apply (absorb_input_rate_lanes empty_padded_block calloc_state 16 Hwf Hlen).
  lia.
Defined.

(** ** keccak *)

Ltac kmem_grid m Hwf Hrow :=
  destruct m as [state row lane]; simpl in Hwf, Hrow;
  grid_of Hwf;
  do 6 (destruct row as [|? row]; try discriminate Hrow); clear Hrow.

Lemma theta_step_spec (m : kmem) :
  wf_state (k_state m) → length (k_temp_row m) = 5%nat →
  k_state (theta_step m) = theta_spec (k_state m) ∧
  length (k_temp_row (theta_step m)) = 5%nat.
Proof.
  intros Hwf Hrow. kmem_grid m Hwf Hrow.
  split; cbv -[Z.lxor ROTL64]; reflexivity.
Qed.

Lemma rho_pi_step_spec (m : kmem) :
  wf_state (k_state m) → length (k_temp_row m) = 5%nat →
  k_state (rho_pi_step m) = rho_pi_spec (k_state m) ∧
  length (k_temp_row (rho_pi_step m)) = 5%nat.
Proof.
  intros Hwf Hrow. kmem_grid m Hwf Hrow.
  split; cbv -[ROTL64]; reflexivity.
Qed.

Lemma chi_step_spec (m : kmem) :
  wf_state (k_state m) → length (k_temp_row m) = 5%nat →
  k_state (chi_step m) = chi_spec (k_state m) ∧
  length (k_temp_row (chi_step m)) = 5%nat.
Proof.
  intros Hwf Hrow. kmem_grid m Hwf Hrow.
  split; cbv -[Z.lxor Z.land not64]; reflexivity.
Qed.

Lemma iota_step_spec (round : Z) (m : kmem) :
  k_state (iota_step round m) = iota_spec round (k_state m) ∧
  k_temp_row (iota_step round m) = k_temp_row m.
Proof. done. Qed.

Lemma rho_pi_spec_wf state : wf_state state → wf_state (rho_pi_spec state).
Proof.
  intros Hwf. grid_of Hwf. split; [done|].
  cbv -[ROTL64]. repeat constructor.
Qed.

Lemma iota_spec_wf round state :
  wf_state state → wf_state (iota_spec round state).
Proof.
  intros Hwf. grid_of Hwf. split; [done|]. repeat constructor.
Qed.

Lemma round_spec_wf round state :
  wf_state state → wf_state (round_spec round state).
Proof.
  intros Hwf. apply iota_spec_wf, grid_wf.
Qed.

(** One iteration of the round loop, without the printing. *)
Lemma round_steps_spec (round : Z) (m : kmem) :
  wf_state (k_state m) → length (k_temp_row m) = 5%nat →
  let m' := iota_step round (chi_step (rho_pi_step (theta_step m))) in
  k_state m' = round_spec round (k_state m) ∧
  length (k_temp_row m') = 5%nat.
Proof.
  intros Hwf Hrow m'. subst m'.
  destruct (theta_step_spec m Hwf Hrow) as [E1 R1].
  destruct (rho_pi_step_spec (theta_step m)) as [E2 R2];
    [rewrite E1; apply grid_wf | done |].
  destruct (chi_step_spec (rho_pi_step (theta_step m))) as [E3 R3];
    [rewrite E2, E1; apply rho_pi_spec_wf, grid_wf | done |].
  destruct (iota_step_spec round (chi_step (rho_pi_step (theta_step m))))
    as [E4 R4].
  rewrite E4, E3, E2, E1, R4. split; [reflexivity | exact R3].
Qed.

(** The round loop of [keccak] computes the specification's rounds. *)
Lemma keccak_round_fst (verbose : bool) (round : Z) (m : kmem)
    (out : string) :
  (keccak_round verbose round (m, out)).1
  = iota_step round (chi_step (rho_pi_step (theta_step m))).
Proof. destruct verbose; reflexivity. Qed.

Lemma keccak_round_quiet (round : Z) (m : kmem) (out : string) :
  (keccak_round false round (m, out)).2 = out.
Proof. reflexivity. Qed.

Lemma keccak_state_spec (state : list (list Z)) (verbose : bool)
    (out : string) :
  wf_state state → (keccak state verbose out).1 = keccak_f_spec state.
Proof.
  intros Hwf. unfold keccak. change KECCAK_ROUNDS with 24.
  pose (P := λ (i : Z) (s : kmem * string),
          k_state s.1 = foldl (λ st r, round_spec r st) state (seqZ 0 i) ∧
          wf_state (k_state s.1) ∧ length (k_temp_row s.1) = 5%nat).
  destruct (for_up_ind P 0 24 (keccak_round verbose)
              (Kmem state (replicate 5 0) 0, out)) as [_ HP].
  - unfold P. split; [reflexivity|]. split; [exact Hwf | reflexivity].
  - intros i [m o] Hi (Hst & Hwfm & Hrow).
    destruct (round_steps_spec i m Hwfm Hrow) as [E R].
    unfold P. rewrite keccak_round_fst, E.
    split; [|split; [by apply round_spec_wf | exact R]].
    rewrite (seqZ_app 0 i 1) by lia. rewrite foldl_app.
    change (seqZ (0 + i) 1) with [0 + (0 + i)].
    rewrite !Z.add_0_l. cbn [foldl]. cbn [fst] in Hst.
    rewrite <- Hst. reflexivity.
  - change (Z.max 0 24) with 24 in HP.
    destruct (for_up 0 24 _ _).2 as [m o]. apply HP.
Qed.

Lemma keccak_quiet (state : list (list Z)) (out : string) :
  (keccak state false out).2 = out.
Proof.
  unfold keccak.
  destruct (for_up_ind (λ _ (s : kmem * string), s.2 = out) 0 KECCAK_ROUNDS
              (keccak_round false) (Kmem state (replicate 5 0) 0, out))
    as [_ HP].
  - reflexivity.
  - intros i [m o] _ Ho. rewrite keccak_round_quiet. exact Ho.
  - destruct (for_up 0 KECCAK_ROUNDS _ _).2 as [m o]. exact HP.
Qed.

(** C5: from every starting state, whatever the verbose flag, [keccak]
    applies exactly 24 rounds, numbered 0 to 23; each round is theta, then
    rho/pi, then chi, then iota, in this order; and iota XORs the round
    constant of the round into lane (0,0) and changes no other lane. *)
Theorem keccak_24_rounds (state : list (list Z)) (verbose : bool)
    (out : string) :
  wf_state state →
  (keccak state verbose out).1
  = foldl (λ st round,
             iota_spec round (chi_spec (rho_pi_spec (theta_spec st))))
      state (seqZ 0 24) ∧
  length (seqZ 0 24) = 24%nat ∧
  ∀ (round : Z) (st : list (list Z)) (r c : Z),
    wf_state st → 0 ≤ r < 5 → 0 ≤ c < 5 →
    ld2 (iota_spec round st) r c
    = if decide (r = 0 ∧ c = 0)
      then Z.lxor (ld2 st 0 0) (tbl round_constants round)
      else ld2 st r c.
Proof.
  intros Hwf. split; [exact (keccak_state_spec state verbose out Hwf)|].
  split; [reflexivity|].
  intros round st r c Hst Hr Hc. grid_of Hst.
  counter_cases r 5%nat; counter_cases c 5%nat; reflexivity.
Qed.

Lemma calloc_state_wf : wf_state calloc_state.
Proof. split; [done|]. repeat constructor. Qed.

Lemma keccak_24_rounds_witness :
  wf_state calloc_state ∧
  (keccak calloc_state false EmptyString).1
  = foldl (λ st round,
             iota_spec round (chi_spec (rho_pi_spec (theta_spec st))))
      calloc_state (seqZ 0 24).
Proof.
  split; [apply calloc_state_wf|].
  apply (keccak_24_rounds calloc_state false EmptyString calloc_state_wf).
Defined.

(** ** The verbose flag *)

Lemma keccak_state_indep (state : list (list Z)) (verbose verbose' : bool)
    (out out' : string) :
  (keccak state verbose out).1 = (keccak state verbose' out').1.
Proof.
  unfold keccak.
  pose proof (for_up_proj fst fst 0 KECCAK_ROUNDS
                (keccak_round verbose) (keccak_round verbose')
                (Kmem state (replicate 5 0) 0, out)
                (Kmem state (replicate 5 0) 0, out')) as H.
  destruct (for_up 0 KECCAK_ROUNDS (keccak_round verbose) _).2 as [m1 o1].
  destruct (for_up 0 KECCAK_ROUNDS (keccak_round verbose') _).2 as [m2 o2].
  cbn [fst] in *. f_equal. apply H; [reflexivity|].
  intros i [a oa] [b ob] Hab. rewrite !keccak_round_fst.
  cbn [fst] in Hab. by rewrite Hab.
Qed.

Lemma keccak_verbose_state (state : list (list Z)) (out out' : string) :
  (keccak state true out).1 = (keccak state false out').1.
Proof. apply keccak_state_indep. Qed.

Lemma main_loop_verbose_state (fuel : nat) (infile input : list byte)
    (state : list (list Z)) (bytes_read : Z) (out out' : string) :
  fst <$> main_loop fuel true infile input state bytes_read out
  = fst <$> main_loop fuel false infile input state bytes_read out'.
Proof.
  revert infile input state bytes_read out out'.
  induction fuel as [|fuel IH]; intros; [done|].
  cbn [main_loop].
  match goal with
  | |- context [keccak ?s true ?o] =>
      pose proof (keccak_verbose_state s o out') as Hk;
      destruct (keccak s true o) as [s1 o1]
  end.
  destruct (keccak _ false out') as [s2 o2]. simpl in Hk. subst s2.
  destruct (bytes_read =? RATE_BYTES); [|done].
  destruct (fread _ _ _) as [[n buf] rest]. apply IH.
Qed.

(** ** The driver *)

Lemma fread_short (input file : list byte) :
  (length file < 136)%nat →
  fread input RATE_BYTES file
  = (Z.of_nat (length file), file ++ drop (length file) input, []).
Proof.
  intros Hlen. unfold fread. change (Z.to_nat RATE_BYTES) with 136%nat.
  rewrite take_ge, (drop_ge file) by lia. reflexivity.
Qed.

Lemma fread_full (input file : list byte) :
  (136 ≤ length file)%nat →
  fread input RATE_BYTES file
  = (136, take 136 file ++ drop 136 input, drop 136 file).
Proof.
  intros Hlen. unfold fread. change (Z.to_nat RATE_BYTES) with 136%nat.
  rewrite length_take, Nat.min_l by lia. reflexivity.
Qed.

Lemma memset_all (input : list byte) :
  length input = 200%nat →
  memset input x00 (RATE_BYTES + CAPACITY_BYTES) = replicate 200 x00.
Proof.
  intros Hlen. unfold memset.
  change (Z.to_nat (RATE_BYTES + CAPACITY_BYTES)) with 200%nat.
  rewrite drop_ge by lia. apply app_nil_r.
Qed.

Lemma keccak_quiet_pair (state : list (list Z)) (out : string) :
  keccak state false out = ((keccak state false EmptyString).1, out).
Proof.
  rewrite (surjective_pairing (keccak state false out)).
  rewrite keccak_quiet.
  rewrite (keccak_state_indep state false false out EmptyString).
  reflexivity.
Qed.

(** The last iteration: fewer than [RATE_BYTES] bytes were read. *)
Lemma main_loop_last (fuel : nat) (infile input : list byte)
    (state : list (list Z)) (bytes_read : Z) (out : string) :
  bytes_read ≠ 136 →
  main_loop (S fuel) false infile input state bytes_read out
  = Some (absorb_permute (pad_input input bytes_read) state, out).
Proof.
  intros Hn. cbn [main_loop]. rewrite keccak_quiet_pair.
  change RATE_BYTES with 136. destruct (Z.eqb_spec bytes_read 136); [lia|].
  unfold absorb_permute. reflexivity.
Qed.

(** An iteration on a full block: nothing is padded, the buffer is
    cleared and the next block is read. *)
Lemma main_loop_next (fuel : nat) (infile input : list byte)
    (state : list (list Z)) (out : string) :
  length input = 200%nat →
  main_loop (S fuel) false infile input state 136 out
  = let '(bytes_read, input', infile') :=
      fread (replicate 200 x00) RATE_BYTES infile in
    main_loop fuel false infile' input' (absorb_permute input state)
      bytes_read out.
Proof.
  intros Hlen. cbn [main_loop].
  change (pad_input input 136) with input.
  rewrite keccak_quiet_pair. change (136 =? RATE_BYTES) with true.
  cbv iota. rewrite memset_all by done. unfold absorb_permute. reflexivity.
Qed.

(** The loop entered on a freshly read, zero-filled buffer never runs out
    of fuel when it is given more iterations than the file has bytes. *)
Lemma main_loop_total (fuel : nat) (file : list byte)
    (state : list (list Z)) (out : string) :
  (length file < fuel)%nat →
  is_Some (let '(bytes_read, input, infile) :=
             fread (replicate 200 x00) RATE_BYTES file in
           main_loop fuel false infile input state bytes_read out).
Proof.
  revert file state. induction fuel as [|fuel IH]; intros file state Hlen;
    [lia|].
  destruct (decide (length file < 136)%nat) as [Hs|Hf].
  - rewrite fread_short by done. rewrite main_loop_last by lia. done.
  - rewrite fread_full by lia. rewrite main_loop_next.
    + apply IH. rewrite length_drop. lia.
    + rewrite length_app, length_take, length_drop, length_replicate. lia.
Qed.

Lemma main_verbose_state (file : list byte) :
  fst <$> main file true = fst <$> main file false.
Proof.
  unfold main. destruct (fread _ _ file) as [[n buf] rest].
  pose proof (main_loop_verbose_state (S (length file)) rest buf
                calloc_state n EmptyString EmptyString) as H.
  destruct (main_loop _ true _ _ _ _ _) as [[s1 o1]|];
    destruct (main_loop _ false _ _ _ _ _) as [[s2 o2]|];
    cbn in H |- *; congruence.
Qed.

(** [main] returns on every file, in both modes. *)
Lemma main_total (file : list byte) (verbose : bool) :
  is_Some (main file verbose).
Proof.
  assert (Hq : is_Some (fst <$> main file false)).
  { unfold main. change (calloc_bytes (RATE_BYTES + CAPACITY_BYTES))
      with (replicate 200 x00).
    pose proof (main_loop_total (S (length file)) file calloc_state
                  EmptyString ltac:(lia)) as H.
    destruct (fread _ _ file) as [[n buf] rest].
    destruct H as [[st o] ->]. done. }
  destruct verbose; [rewrite <- main_verbose_state in Hq|];
    apply fmap_is_Some in Hq; exact Hq.
Qed.

(** ** The verbose flag, all of it *)

(** C9: the state computed with the verbose flag set equals the state
    computed without it: after [keccak] from every starting state, after
    the loop of [main] from every starting state, buffer and file, and
    at the end of [main] on every file.  The flag only adds text. *)
Theorem verbose_state_independent :
  (∀ state out out', (keccak state true out).1 = (keccak state false out').1) ∧
  (∀ fuel infile input state bytes_read out out',
     fst <$> main_loop fuel true infile input state bytes_read out
     = fst <$> main_loop fuel false infile input state bytes_read out') ∧
  (∀ infile, fst <$> main infile true = fst <$> main infile false).
Proof.
  split; [apply keccak_verbose_state|].
  split; [apply main_loop_verbose_state | apply main_verbose_state].
Qed.

(** *** Files whose length is a multiple of the rate *)

Lemma absorb_full_blocks_cons (block : list byte) (blocks : list (list byte))
    (state : list (list Z)) :
  absorb_full_blocks (block :: blocks) state
  = absorb_full_blocks blocks
      (absorb_permute (block ++ replicate 64 x00) state).
Proof. unfold absorb_full_blocks. cbn [foldl]. reflexivity. Qed.

Lemma full_blocks_loop (k : nat) :
  ∀ (file : list byte) (state : list (list Z)) (fuel : nat) (out : string),
    length file = (136 * k)%nat → (k < fuel)%nat →
    (let '(bytes_read, input, infile) :=
       fread (replicate 200 x00) RATE_BYTES file in
     main_loop fuel false infile input state bytes_read out)
    = Some (absorb_permute empty_padded_block
              (absorb_full_blocks (full_blocks k file) state), out).
Proof.
  induction k as [|k IH]; intros file state fuel out Hlen Hfuel;
    (destruct fuel as [|fuel]; [lia|]).
  - apply nil_length_inv in Hlen. subst file.
    rewrite fread_short by (simpl; lia). rewrite main_loop_last by (simpl; lia).
    reflexivity.
  - rewrite fread_full by lia. rewrite main_loop_next.
    + change (drop 136 (replicate 200 x00)) with (replicate 64 x00).
      cbn [full_blocks]. rewrite absorb_full_blocks_cons.
      apply IH; [|lia]. rewrite length_drop. lia.
    + rewrite length_app, length_take, length_drop, length_replicate. lia.
Qed.

Lemma full_blocks_join (k : nat) (file : list byte) :
  length file = (136 * k)%nat →
  mjoin (full_blocks k file) = file ∧
  Forall (λ block, length block = 136%nat) (full_blocks k file).
Proof.
  revert file. induction k as [|k IH]; intros file Hlen.
  - apply nil_length_inv in Hlen. subst file. split; [done | constructor].
  - destruct (IH (drop 136 file)) as [Hj Hf]; [rewrite length_drop; lia|].
    cbn [full_blocks]. split.
    + change (take 136 file ++ mjoin (full_blocks k (drop 136 file)) = file).
      rewrite Hj. apply take_drop.
    + constructor; [|done]. rewrite length_take. lia.
Qed.

(** C3: for every file whose length is a multiple of 136 bytes (the
    empty file and one full block followed by end of file included),
    [main] ends in the state reached by absorbing and permuting the full
    blocks of the file in order and then absorbing and permuting one more
    block: the empty block padded with [L = 0], that is 0x06, 134 zero
    bytes, 0x80 and the 64 zero bytes of the capacity part. *)
Theorem exact_multiple_extra_block (file : list byte) (k : nat)
    (verbose : bool) :
  length file = (136 * k)%nat →
  fst <$> main file verbose
  = Some (absorb_permute empty_padded_block
            (absorb_full_blocks (full_blocks k file) calloc_state)) ∧
  mjoin (full_blocks k file) = file ∧
  Forall (λ block, length block = 136%nat) (full_blocks k file) ∧
  empty_padded_block
  = [x06] ++ replicate 134 x00 ++ [x80] ++ replicate 64 x00.
Proof.
  intros Hlen. split; [|split; [|split]].
  - assert (Hq : fst <$> main file false
                 = Some (absorb_permute empty_padded_block
                           (absorb_full_blocks (full_blocks k file)
                              calloc_state))).
    { unfold main. change (calloc_bytes (RATE_BYTES + CAPACITY_BYTES))
        with (replicate 200 x00).
      pose proof (full_blocks_loop k file calloc_state (S (length file))
                    EmptyString Hlen ltac:(lia)) as H.
      destruct (fread _ _ file) as [[n buf] rest]. rewrite H. reflexivity. }
    destruct verbose; [rewrite main_verbose_state|]; exact Hq.
  - by apply full_blocks_join.
  - by apply full_blocks_join.
  - vm_compute. reflexivity.
Qed.

Lemma exact_multiple_extra_block_witness :
  length (replicate 136 x61) = (136 * 1)%nat ∧
  fst <$> main (replicate 136 x61) false
  = Some (absorb_permute empty_padded_block
            (absorb_full_blocks (full_blocks 1 (replicate 136 x61))
               calloc_state)).
Proof.
  split; [reflexivity|].
  apply (exact_multiple_extra_block (replicate 136 x61) 1 false).
  reflexivity.
Defined.

(** *** What [main] prints *)

Lemma main_loop_quiet (fuel : nat) (infile input : list byte)
    (state : list (list Z)) (bytes_read : Z) (out : string)
    (r : list (list Z) * string) :
  main_loop fuel false infile input state bytes_read out = Some r →
  r.2 = out.
Proof.
  revert infile input state bytes_read.
  induction fuel as [|fuel IH]; intros infile input state bytes_read;
    [done|].
  cbn [main_loop]. rewrite keccak_quiet_pair.
  destruct (bytes_read =? RATE_BYTES).
  - destruct (fread _ _ infile) as [[n buf] rest]. apply IH.
  - intros H. apply (inj Some) in H. rewrite <- H. reflexivity.
Qed.

(** Without [-v] the output is the line of the final [printf]: [0x], then
    lanes (0,0), (0,1), (0,2) and (0,4) under [%lx]. *)
Lemma main_quiet_output (file : list byte) :
  ∃ state,
    main file false
    = Some (state,
            "0x" +:+ fmt_lx (ld2 state 0 0) +:+ fmt_lx (ld2 state 0 1)
                 +:+ fmt_lx (ld2 state 0 2) +:+ fmt_lx (ld2 state 0 4)
                 +:+ LF).
Proof.
  pose proof (main_total file false) as Hsome. revert Hsome. unfold main.
  destruct (fread _ _ file) as [[n buf] rest].
  destruct (main_loop _ false rest buf calloc_state n EmptyString)
    as [[st o]|] eqn:E; intros Hsome; [|by destruct Hsome].
  apply main_loop_quiet in E. cbn [snd] in E. subst o.
  exists st. reflexivity.
Qed.

(** *** The final [printf] on concrete files *)

(** C1: for the empty input the digest should be rendered as
    a7ffc6f8bf1ed76651c14756a061d662f580ff4de43b49fa82d80a4b80f8434a.
    The state [main] ends with does carry these 32 bytes in lanes (0,0) to
    (0,3), but the line the program prints is another string: [0x], the
    lanes (0,0), (0,1), (0,2) as integers (their bytes reversed) and then
    lane (0,4) instead of lane (0,3). *)
Theorem empty_input_printed_digest :
  snd <$> main [] false
  = Some ("0x66d71ebff8c6ffa762d661a05647c151fa493be44dff80f5e2f36b34b7be6652"
            +:+ LF) ∧
  digest_hex <$> (fst <$> main [] false)
  = Some "a7ffc6f8bf1ed76651c14756a061d662f580ff4de43b49fa82d80a4b80f8434a".
Proof. split; vm_compute; reflexivity. Qed.

(** C2: the digest output by the driver should be lanes (0,0), (0,1),
    (0,2), (0,3), each as 8 little-endian bytes, in 64 lowercase hex
    characters.  On every file the program prints instead [0x] followed by
    lanes (0,0), (0,1), (0,2) and (0,4) under [%lx]; on the empty file this
    line differs from the rendering of the first four lanes, and lane
    (0,4) is not lane (0,3). *)
Theorem printed_lanes_not_digest :
  (∀ file : list byte,
     ∃ state,
       main file false
       = Some (state,
               "0x" +:+ fmt_lx (ld2 state 0 0) +:+ fmt_lx (ld2 state 0 1)
                    +:+ fmt_lx (ld2 state 0 2) +:+ fmt_lx (ld2 state 0 4)
                    +:+ LF)) ∧
  snd <$> main [] false
  ≠ (λ r, digest_hex r.1 +:+ LF) <$> main [] false ∧
  (λ r, ld2 r.1 0 4) <$> main [] false
  ≠ (λ r, ld2 r.1 0 3) <$> main [] false.
Proof.
  split; [exact main_quiet_output|].
  split; vm_compute; intros H; discriminate H.
Qed.

(** C8: the rendered digest should have 64 hex characters for every
    input.  For the file that holds the single byte 0x41 the program
    prints 63 hex digits after [0x]: lane (0,0) starts with a zero nibble
    and [%lx] drops it. *)
Theorem one_byte_file_short_output :
  snd <$> main [x41] false
  = Some ("0x" +:+
          "a8402af6cbd9e1c1dec70c80f7f2b5b1b62fee96a8854b14b88aecb1954c37c"
          +:+ LF) ∧
  String.length
    "a8402af6cbd9e1c1dec70c80f7f2b5b1b62fee96a8854b14b88aecb1954c37c"
  = 63%nat ∧
  digest_hex <$> (fst <$> main [x41] false)
  = Some "1c9ebd6caf02840a5b2b7f0fc870ec1db154886ae9fe621b822b14fd0bf513d6".
Proof. split; [|split]; vm_compute; reflexivity. Qed.

(** * Further properties *)

(** ** 64-bit arithmetic *)

Lemma lt_pow2_log2 (a n : Z) : 0 < n → 0 ≤ a → (a < 2 ^ n ↔ Z.log2 a < n).
Proof.
  intros Hn Ha. destruct (Z.eq_dec a 0) as [->|Hne].
  - change (Z.log2 0) with 0. split; intros _; [lia|].
    apply Z.pow_pos_nonneg; lia.
  - apply Z.log2_lt_pow2. lia.
Qed.

Lemma range64_log2 (a : Z) : 0 ≤ a < 2 ^ 64 → Z.log2 a < 64.
Proof. intros Ha. apply lt_pow2_log2; lia. Qed.

Lemma log2_range64 (a : Z) : 0 ≤ a → Z.log2 a < 64 → 0 ≤ a < 2 ^ 64.
Proof. intros Ha Hl. split; [done|]. apply lt_pow2_log2; lia. Qed.

Lemma lxor_range (a b : Z) :
  0 ≤ a < 2 ^ 64 → 0 ≤ b < 2 ^ 64 → 0 ≤ Z.lxor a b < 2 ^ 64.
Proof.
  intros Ha Hb. apply log2_range64; [apply Z.lxor_nonneg; lia|].
  pose proof (Z.log2_lxor a b ltac:(lia) ltac:(lia)).
  pose proof (range64_log2 a Ha). pose proof (range64_log2 b Hb). lia.
Qed.

Lemma lor_range (a b : Z) :
  0 ≤ a < 2 ^ 64 → 0 ≤ b < 2 ^ 64 → 0 ≤ Z.lor a b < 2 ^ 64.
Proof.
  intros Ha Hb. apply log2_range64; [apply Z.lor_nonneg; lia|].
  pose proof (Z.log2_lor a b ltac:(lia) ltac:(lia)).
  pose proof (range64_log2 a Ha). pose proof (range64_log2 b Hb). lia.
Qed.

Lemma land_range (a b : Z) :
  0 ≤ a < 2 ^ 64 → 0 ≤ b < 2 ^ 64 → 0 ≤ Z.land a b < 2 ^ 64.
Proof.
  intros Ha Hb. apply log2_range64; [apply Z.land_nonneg; lia|].
  pose proof (Z.log2_land a b ltac:(lia) ltac:(lia)).
  pose proof (range64_log2 a Ha). pose proof (range64_log2 b Hb). lia.
Qed.

Lemma shl64_range (x r : Z) : 0 ≤ shl64 x r < 2 ^ 64.
Proof. unfold shl64. apply Z.mod_pos_bound. lia. Qed.

Lemma not64_range (x : Z) : 0 ≤ not64 x < 2 ^ 64.
Proof. unfold not64. apply Z.mod_pos_bound. lia. Qed.

Lemma shiftr_range (x k : Z) : 0 ≤ k → 0 ≤ x < 2 ^ 64 → 0 ≤ Z.shiftr x k < 2 ^ 64.
Proof.
  intros Hk Hx. split; [apply Z.shiftr_nonneg; lia|].
  rewrite Z.shiftr_div_pow2 by lia.
  assert (0 < 2 ^ k) by (apply Z.pow_pos_nonneg; lia).
  apply Z.div_lt_upper_bound; [lia | nia].
Qed.

Lemma ROTL64_range (x r : Z) :
  r ≤ 64 → 0 ≤ x < 2 ^ 64 → 0 ≤ ROTL64 x r < 2 ^ 64.
Proof.
  intros Hr Hx. unfold ROTL64.
  apply lor_range; [apply shl64_range | apply shiftr_range; lia].
Qed.

Lemma ROTR64_range (x r : Z) :
  0 ≤ r → 0 ≤ x < 2 ^ 64 → 0 ≤ ROTR64 x r < 2 ^ 64.
Proof.
  intros Hr Hx. unfold ROTR64.
  apply lor_range; [apply shiftr_range; lia | apply shl64_range].
Qed.

(** Bit [i] of a 64-bit value, for any integer [i]. *)
Lemma testbit_high (x i : Z) : 0 ≤ x < 2 ^ 64 → 64 ≤ i → Z.testbit x i = false.
Proof.
  intros Hx Hi. destruct (Z.eq_dec x 0) as [->|Hne]; [apply Z.bits_0|].
  apply Z.bits_above_log2; [lia|].
  apply Z.lt_le_trans with 64; [|done]. apply Z.log2_lt_pow2; lia.
Qed.

Lemma shl64_testbit (x r i : Z) :
  0 ≤ r →
  Z.testbit (shl64 x r) i = if decide (0 ≤ i < 64) then Z.testbit x (i - r) else false.
Proof.
  intros Hr. unfold shl64. case_decide as Hi.
  - rewrite Z.mod_pow2_bits_low by lia. apply Z.shiftl_spec. lia.
  - destruct (Z.lt_ge_cases i 0); [apply Z.testbit_neg_r; lia|].
    apply Z.mod_pow2_bits_high. lia.
Qed.

(** [ROTL64] moves bit [i - r] (modulo 64) to bit [i]. *)
Lemma ROTL64_testbit (x r i : Z) :
  0 ≤ x < 2 ^ 64 → 0 < r < 64 → 0 ≤ i < 64 →
  Z.testbit (ROTL64 x r) i = Z.testbit x ((i - r) mod 64).
Proof.
  intros Hx Hr Hi. unfold ROTL64.
  rewrite Z.lor_spec, shl64_testbit by lia.
  rewrite Z.shiftr_spec by lia. rewrite decide_True by lia.
  destruct (Z.lt_ge_cases i r) as [Hlt|Hge].
  - rewrite (Z.testbit_neg_r x (i - r)) by lia. simpl.
    f_equal. rewrite <- (Z.mod_add (i - r) 1 64) by lia.
    rewrite Z.mod_small; lia.
  - rewrite (testbit_high x (i + (64 - r))) by lia. rewrite orb_false_r.
    f_equal. rewrite Z.mod_small; lia.
Qed.

Lemma ROTR64_testbit (x r i : Z) :
  0 ≤ x < 2 ^ 64 → 0 < r < 64 → 0 ≤ i < 64 →
  Z.testbit (ROTR64 x r) i = Z.testbit x ((i + r) mod 64).
Proof.
  intros Hx Hr Hi. unfold ROTR64.
  rewrite Z.lor_spec, shl64_testbit by lia.
  rewrite Z.shiftr_spec by lia. rewrite decide_True by lia.
  destruct (Z.lt_ge_cases (i + r) 64) as [Hlt|Hge].
  - rewrite (Z.testbit_neg_r x (i - (64 - r))) by lia. rewrite orb_false_r.
    f_equal. rewrite Z.mod_small; lia.
  - rewrite (testbit_high x (i + r)) by lia. simpl.
    f_equal. rewrite <- (Z.mod_add (i + r) (-1) 64) by lia.
    rewrite Z.mod_small; lia.
Qed.

Lemma bits64_inj (a b : Z) :
  0 ≤ a < 2 ^ 64 → 0 ≤ b < 2 ^ 64 →
  (∀ i, 0 ≤ i < 64 → Z.testbit a i = Z.testbit b i) → a = b.
Proof.
  intros Ha Hb H. apply Z.bits_inj'. intros i Hi.
  destruct (Z.lt_ge_cases i 64); [apply H; lia|].
  rewrite !testbit_high by lia. done.
Qed.

(** X1: on 64-bit values and for rotations from 1 to 63, the macro
    [ROTL64] is a rotation of the 64 bits (bit [i] of the result is bit
    [i - r] modulo 64 of the argument, and the result is a 64-bit value),
    and the macro [ROTR64] undoes it, in both orders. *)
Theorem ROTR64_ROTL64 (x r : Z) :
  0 ≤ x < 2 ^ 64 → 0 < r < 64 →
  0 ≤ ROTL64 x r < 2 ^ 64 ∧
  (∀ i, 0 ≤ i < 64 → Z.testbit (ROTL64 x r) i = Z.testbit x ((i - r) mod 64)) ∧
  ROTR64 (ROTL64 x r) r = x ∧
  ROTL64 (ROTR64 x r) r = x.
Proof.
  intros Hx Hr.
  pose proof (ROTL64_range x r ltac:(lia) Hx) as Hl.
  pose proof (ROTR64_range x r ltac:(lia) Hx) as Hrr.
  split; [done|]. split; [intros i Hi; by apply ROTL64_testbit|]. split.
  - apply bits64_inj; [apply ROTR64_range; lia | done |]. intros i Hi.
    rewrite ROTR64_testbit, ROTL64_testbit by (done || apply Z.mod_pos_bound; lia).
    f_equal. rewrite Zminus_mod_idemp_l.
    replace (i + r - r) with i by lia. apply Z.mod_small. lia.
  - apply bits64_inj; [apply ROTL64_range; lia | done |]. intros i Hi.
    rewrite ROTL64_testbit, ROTR64_testbit by (done || apply Z.mod_pos_bound; lia).
    f_equal. rewrite Zplus_mod_idemp_l.
    replace (i - r + r) with i by lia. apply Z.mod_small. lia.
Qed.

Lemma ROTR64_ROTL64_witness :
  0 ≤ 0x8000000000000001 < 2 ^ 64 ∧ 0 < 1 < 64 ∧
  ROTL64 0x8000000000000001 1 = 3 ∧
  ROTR64 (ROTL64 0x8000000000000001 1) 1 = 0x8000000000000001.
Proof.
  assert (Hx : 0 ≤ 0x8000000000000001 < 2 ^ 64) by lia.
  assert (Hr : 0 < 1 < 64) by lia.
  split; [exact Hx|]. split; [exact Hr|]. split; [reflexivity|].
  apply (ROTR64_ROTL64 0x8000000000000001 1 Hx Hr).
Defined.

(** ** pad_input, byte by byte *)

(** Every byte of the buffer after [pad_input], whatever the buffer held:
    the marker at [input_len], [0x80] at offset 135, zeros strictly
    between [input_len] and 134, and the old byte everywhere else. *)
Lemma pad_input_lookup (input : list byte) (L : Z) (k : nat) :
  0 ≤ L ≤ 135 → (136 ≤ length input)%nat →
  pad_input input L !! k =
    if decide (Z.of_nat k = L) then Some (if decide (L = 135) then x86 else x06)
    else if decide (k = 135%nat) then Some x80
    else if decide (L < Z.of_nat k < 134) then Some x00
    else input !! k.
Proof.
  intros HL Hlen.
  destruct (pad_input_below input L) as (i & buf & Hr & Hbuf); [lia|].
  rewrite Hr. destruct (Z.eqb_spec (136 - L) 1) as [Hq1|Hq1].
  { repeat case_decide; try lia.
    - replace k with (Z.to_nat L) by lia. apply lookup_wr_eq; lia.
    - apply lookup_wr_ne; lia. }
  destruct (Z.eqb_spec (136 - L) 2) as [Hq2|Hq2].
  { repeat case_decide; try lia.
    - rewrite lookup_wr_ne by lia. replace k with (Z.to_nat L) by lia.
      apply lookup_wr_eq; lia.
    - replace k with (Z.to_nat (L + 1)) by lia.
      apply lookup_wr_eq; [lia|]. rewrite length_wr. lia.
    - rewrite !lookup_wr_ne by lia. done. }
  destruct Hbuf as (-> & Hlb & Hout & Hat & Hin); [lia|].
  repeat case_decide; try lia.
  - rewrite lookup_wr_ne by lia. replace k with (Z.to_nat L) by lia.
    apply Hat. lia.
  - replace k with (Z.to_nat (L + (134 - L) + 1)) by lia.
    apply lookup_wr_eq; [lia|]. rewrite Hlb. lia.
  - rewrite lookup_wr_ne by lia. apply Hin; lia.
  - rewrite lookup_wr_ne by lia. apply Hout. lia.
Qed.

(** X2: whatever the buffer holds, [pad_input] with at most 132 data
    bytes zeroes the offsets from [input_len + 1] to 133 and never
    touches offset 134: the zeroing loop stops one byte short, and the
    byte found at offset 134 stays between the zeros and the final 0x80.
    With 133 data bytes offset 134 is left alone as well. *)
Theorem pad_input_offset_134 (input : list byte) (L : Z) :
  0 ≤ L ≤ 133 → (136 ≤ length input)%nat →
  pad_input input L !! 134%nat = input !! 134%nat ∧
  (∀ k : nat, L < Z.of_nat k ≤ 133 → pad_input input L !! k = Some x00) ∧
  pad_input input L !! Z.to_nat L = Some x06 ∧
  pad_input input L !! 135%nat = Some x80.
Proof.
  intros HL Hlen. split; [|split; [|split]].
  - rewrite pad_input_lookup by lia. repeat case_decide; lia || done.
  - intros k Hk. rewrite pad_input_lookup by lia.
    repeat case_decide; lia || done.
  - rewrite pad_input_lookup by lia. repeat case_decide; lia || done.
  - rewrite pad_input_lookup by lia. repeat case_decide; lia || done.
Qed.

Lemma pad_input_offset_134_witness :
  0 ≤ 0 ≤ 133 ∧ (136 ≤ length (replicate 200 xff))%nat ∧
  pad_input (replicate 200 xff) 0 !! 134%nat = Some xff ∧
  pad_input (replicate 200 xff) 0 !! 133%nat = Some x00.
Proof.
  assert (Hlen : (136 ≤ length (replicate 200 xff))%nat) by (simpl; lia).
  split; [lia|]. split; [exact Hlen|].
  destruct (pad_input_offset_134 (replicate 200 xff) 0 ltac:(lia) Hlen)
    as (H134 & Hz & _).
  split; [rewrite H134; reflexivity | apply Hz; lia].
Defined.

Lemma lookup_replicate_dec {A : Type} (n i : nat) (x : A) :
  replicate n x !! i = if decide (i < n)%nat then Some x else None.
Proof.
  case_decide; [by apply lookup_replicate_2|].
  apply lookup_ge_None_2. rewrite length_replicate. lia.
Qed.

(** The whole buffer after padding data that sits in a zeroed buffer. *)
Lemma pad_input_block (data : list byte) :
  (length data < 136)%nat →
  pad_input (data ++ replicate (200 - length data) x00)
    (Z.of_nat (length data))
  = data ++ padding (136 - length data) ++ replicate 64 x00.
Proof.
  intros HL.
  assert (Hlen : length (data ++ replicate (200 - length data) x00) = 200%nat)
    by (rewrite length_app, length_replicate; lia).
  apply list_eq. intros k.
  rewrite pad_input_lookup by lia.
  destruct (decide (k < length data)%nat) as [Hk|Hk].
  { rewrite !lookup_app_l by lia. repeat case_decide; lia || done. }
  rewrite !(lookup_app_r data) by lia.
  remember (k - length data)%nat as d eqn:Hd.
  remember (length data) as L eqn:HeqL.
  assert (k = (L + d)%nat) as -> by lia. clear Hd Hk HeqL Hlen.
  rewrite lookup_replicate_dec.
  destruct (decide (L = 135)%nat) as [->|HL135].
  { change (padding (136 - 135)) with [x86].
    destruct d as [|d]; [repeat case_decide; lia || done|].
    change (([x86] ++ replicate 64 x00) !! S d) with (replicate 64 x00 !! d).
    rewrite lookup_replicate_dec. repeat case_decide; lia || done. }
  replace (136 - L)%nat with (S (S (134 - L))) by lia. cbn [padding].
  destruct d as [|d]; [repeat case_decide; lia || done|].
  change (([x06] ++ replicate (134 - L) x00 ++ [x80]) ++ replicate 64 x00)
    with (x06 :: (replicate (134 - L) x00 ++ [x80]) ++ replicate 64 x00).
  rewrite lookup_cons_ne_0 by lia. cbn [Nat.pred].
  rewrite <- app_assoc.
  destruct (decide (d < 134 - L)%nat) as [Hd|Hd].
  { rewrite lookup_app_l by (rewrite length_replicate; lia).
    rewrite lookup_replicate_dec. repeat case_decide; lia || done. }
  rewrite lookup_app_r by (rewrite length_replicate; lia).
  rewrite length_replicate.
  destruct (d - (134 - L))%nat as [|e] eqn:He.
  { cbn. repeat case_decide; lia || done. }
  change (([x80] ++ replicate 64 x00) !! S e) with (replicate 64 x00 !! e).
  rewrite lookup_replicate_dec. repeat case_decide; lia || done.
Qed.

(** ** The driver as a sponge over the padded file *)

Lemma length_padding (q : nat) : length (padding q) = q.
Proof.
  destruct q as [|[|n]]; [done | done |].
  cbn [padding]. rewrite !length_app, length_replicate. simpl. lia.
Qed.

Lemma length_padded_message (file : list byte) :
  length (padded_message file) = (136 * S (length file / 136))%nat.
Proof.
  unfold padded_message. rewrite length_app, length_padding.
  pose proof (Nat.div_mod_eq (length file) 136).
  pose proof (Nat.mod_upper_bound (length file) 136). lia.
Qed.

Lemma padded_message_short (file : list byte) :
  (length file < 136)%nat →
  take 136 (padded_message file) = file ++ padding (136 - length file).
Proof.
  intros HL. unfold padded_message. rewrite Nat.mod_small by done.
  apply take_ge. rewrite length_app, length_padding. lia.
Qed.

Lemma padded_message_long (file : list byte) :
  (136 ≤ length file)%nat →
  take 136 (padded_message file) = take 136 file ∧
  drop 136 (padded_message file) = padded_message (drop 136 file).
Proof.
  intros HL. unfold padded_message. rewrite length_drop.
  assert (E : ((length file - 136) `mod` 136 = length file `mod` 136)%nat).
  { pose proof (Nat.div_mod_eq (length file) 136).
    pose proof (Nat.mod_upper_bound (length file) 136 ltac:(lia)).
    symmetry. apply (Nat.mod_unique _ _ (length file / 136 - 1)); [lia|].
    assert (1 ≤ length file / 136)%nat by (apply Nat.div_le_lower_bound; lia).
    lia. }
  rewrite E. split.
  - apply take_app_le. lia.
  - rewrite drop_app_le by lia. done.
Qed.

Lemma sponge_loop (k : nat) :
  ∀ (file : list byte) (state : list (list Z)) (fuel : nat) (out : string),
    (length file / 136)%nat = k → (k < fuel)%nat →
    (let '(bytes_read, input, infile) :=
       fread (replicate 200 x00) RATE_BYTES file in
     main_loop fuel false infile input state bytes_read out)
    = Some (absorb_full_blocks (full_blocks (S k) (padded_message file))
              state, out).
Proof.
  induction k as [|k IH]; intros file state fuel out Hk Hfuel;
    (destruct fuel as [|fuel]; [lia|]).
  - assert (HL : (length file < 136)%nat).
    { apply Nat.div_small_iff in Hk; lia. }
    rewrite fread_short by done. rewrite main_loop_last by lia.
    rewrite drop_replicate, pad_input_block by done.
    cbn [full_blocks]. rewrite padded_message_short by done.
    unfold absorb_full_blocks. cbn [foldl]. rewrite <- app_assoc. reflexivity.
  - assert (HL : (136 ≤ length file)%nat).
    { destruct (decide (136 ≤ length file)%nat); [done|].
      rewrite Nat.div_small in Hk by lia. lia. }
    rewrite fread_full by lia. rewrite main_loop_next.
    + change (drop 136 (replicate 200 x00)) with (replicate 64 x00).
      cbn [full_blocks].
      destruct (padded_message_long file HL) as [-> ->].
      rewrite absorb_full_blocks_cons. apply IH; [|lia].
      rewrite length_drop.
      pose proof (Nat.div_mod_eq (length file) 136).
      pose proof (Nat.mod_upper_bound (length file) 136 ltac:(lia)).
      symmetry. apply (Nat.div_unique _ _ _ (length file `mod` 136)); lia.
    + rewrite length_app, length_take, length_drop, length_replicate. lia.
Qed.

Lemma main_sponge_state (file : list byte) (verbose : bool) :
  fst <$> main file verbose
  = Some (absorb_full_blocks
            (full_blocks (S (length file / 136)) (padded_message file))
            calloc_state) ∧
  length (padded_message file) = (136 * S (length file / 136))%nat.
Proof.
  split; [|apply length_padded_message].
  assert (Hq : fst <$> main file false
               = Some (absorb_full_blocks
                         (full_blocks (S (length file / 136))
                            (padded_message file)) calloc_state)).
  { unfold main. change (calloc_bytes (RATE_BYTES + CAPACITY_BYTES))
      with (replicate 200 x00).
    pose proof (sponge_loop (length file / 136) file calloc_state
                  (S (length file)) EmptyString eq_refl) as H.
    destruct (fread _ _ file) as [[n buf] rest]. rewrite H; [reflexivity|].
    assert (length file / 136 ≤ length file)%nat
      by (apply Nat.Div0.div_le_upper_bound; lia).
    lia. }
  destruct verbose; [rewrite main_verbose_state|]; exact Hq.
Qed.

(** X3: for every file and both values of the verbose flag, the state
    [main] ends with is the sponge absorption of the padded file: the file
    followed by 0x86, or by 0x06, zeros and 0x80, up to the next multiple
    of 136 bytes (at least one byte is always added), cut into 136-byte
    blocks, each block XORed into the state and followed by one [keccak],
    starting from the zero state.  There are [length / 136 + 1] blocks. *)
Theorem main_sponge (file : list byte) (verbose : bool) :
  fst <$> main file verbose
  = Some (absorb_full_blocks
            (full_blocks (S (length file / 136)) (padded_message file))
            calloc_state) ∧
  length (padded_message file) = (136 * S (length file / 136))%nat ∧
  mjoin (full_blocks (S (length file / 136)) (padded_message file))
  = padded_message file.
Proof.
  destruct (main_sponge_state file verbose) as [Hs Hl].
  split; [exact Hs|]. split; [exact Hl|].
  apply full_blocks_join, length_padded_message.
Qed.

(** ** The padding can be read back *)

Lemma strip_zeros_replicate (n : nat) (b : byte) (r : list byte) :
  Byte.eqb b x00 = false →
  strip_zeros (replicate n x00 ++ b :: r) = b :: r.
Proof.
  intros Hb. induction n as [|n IH]; cbn; [by rewrite Hb | exact IH].
Qed.

Lemma unpad_padded_message (file : list byte) :
  unpad (padded_message file) = Some file.
Proof.
  unfold unpad, padded_message.
  pose proof (Nat.mod_upper_bound (length file) 136 ltac:(lia)) as Hm.
  destruct (136 - length file `mod` 136)%nat as [|[|n]] eqn:Hq; [lia | |].
  - cbn [padding]. rewrite reverse_app, reverse_singleton.
    change ([x86] ++ reverse file) with (x86 :: reverse file). cbv iota.
    change (Byte.eqb x86 x86) with true. cbv iota.
    by rewrite reverse_involutive.
  - cbn [padding].
    rewrite !reverse_app, reverse_replicate, !reverse_singleton.
    rewrite <- !app_assoc.
    change ([x80] ++ replicate n x00 ++ [x06] ++ reverse file)
      with (x80 :: (replicate n x00 ++ x06 :: reverse file)). cbv iota.
    change (Byte.eqb x80 x86) with false. change (Byte.eqb x80 x80) with true.
    cbv iota. rewrite strip_zeros_replicate by done.
    change (Byte.eqb x06 x06) with true. cbv iota.
    by rewrite reverse_involutive.
Qed.

(** X4: the padded byte sequence that [main] absorbs determines the
    file: reading it backwards (a final 0x86, or a final 0x80, zeros and
    0x06) gives the file back, so two different files are never absorbed
    as the same sequence of blocks. *)
Theorem padded_message_inj :
  (∀ file, unpad (padded_message file) = Some file) ∧
  (∀ file1 file2,
     padded_message file1 = padded_message file2 → file1 = file2).
Proof.
  split; [exact unpad_padded_message|].
  intros file1 file2 H.
  pose proof (unpad_padded_message file1) as H1. rewrite H in H1.
  rewrite unpad_padded_message in H1. by injection H1.
Qed.

(** ** absorb_input as an XOR *)

Lemma rd_take (input : list byte) (k : Z) :
  0 ≤ k < 136 → rd (take 136 input) k = rd input k.
Proof.
  intros Hk. unfold rd. destruct (k <? 0); [done|].
  rewrite lookup_take_lt by lia. done.
Qed.

Lemma input_word_take (input : list byte) (i : Z) :
  0 ≤ i ≤ 16 → input_word (take 136 input) i = input_word input i.
Proof.
  intros Hi. rewrite !input_word_foldr.
  change (seqZ 0 8) with [0; 1; 2; 3; 4; 5; 6; 7]. cbn [foldr].
  rewrite !rd_take by lia. reflexivity.
Qed.

Lemma absorb_input_take (input : list byte) (state : list (list Z)) :
  wf_state state →
  absorb_input (take 136 input) state = absorb_input input state.
Proof.
  intros Hwf. grid_of Hwf. rewrite !absorb_input_grid.
  rewrite !input_word_take by lia. reflexivity.
Qed.

(** X5: [absorb_input] reads the first 136 bytes of the buffer and
    nothing else: two buffers that agree on their first 136 bytes give
    the same state, so the 64 bytes behind the rate never reach the
    state. *)
Theorem absorb_input_rate_only (input1 input2 : list byte)
    (state : list (list Z)) :
  wf_state state → take 136 input1 = take 136 input2 →
  absorb_input input1 state = absorb_input input2 state.
Proof.
  intros Hwf H.
  rewrite <- (absorb_input_take input1), <- (absorb_input_take input2) by done.
  by rewrite H.
Qed.

Lemma absorb_input_rate_only_witness :
  wf_state calloc_state ∧
  take 136 (replicate 136 x61 ++ replicate 64 x00)
  = take 136 (replicate 136 x61 ++ replicate 64 xff) ∧
  absorb_input (replicate 136 x61 ++ replicate 64 x00) calloc_state
  = absorb_input (replicate 136 x61 ++ replicate 64 xff) calloc_state.
Proof.
  assert (Hwf : wf_state calloc_state)
    by (split; [reflexivity | repeat constructor]).
  assert (Ht : take 136 (replicate 136 x61 ++ replicate 64 x00)
               = take 136 (replicate 136 x61 ++ replicate 64 xff))
    by reflexivity.
  split; [exact Hwf|]. split; [exact Ht|].
  exact (absorb_input_rate_only _ _ calloc_state Hwf Ht).
Defined.

Lemma input_word_zero (n : nat) (i : Z) :
  0 ≤ i ≤ 16 → input_word (replicate n x00) i = 0.
Proof.
  intros Hi. rewrite input_word_foldr.
  change (seqZ 0 8) with [0; 1; 2; 3; 4; 5; 6; 7]. cbn [foldr].
  assert (E : ∀ k, rd (replicate n x00) k = x00).
  { intros k. unfold rd. destruct (k <? 0); [done|].
    rewrite lookup_replicate_dec. by case_decide. }
  rewrite !E. reflexivity.
Qed.

Lemma lxor_cancel (a w : Z) : Z.lxor (Z.lxor a w) w = a.
Proof. by rewrite Z.lxor_assoc, Z.lxor_nilpotent, Z.lxor_0_r. Qed.

Lemma lxor_swap (a v w : Z) : Z.lxor (Z.lxor a v) w = Z.lxor (Z.lxor a w) v.
Proof. by rewrite !Z.lxor_assoc, (Z.lxor_comm v w). Qed.

(** X6: [absorb_input] is an XOR of the block into the state: absorbing
    the same block twice gives the state back, absorbing a block of zero
    bytes changes nothing, and two blocks can be absorbed in either
    order. *)
Theorem absorb_input_xor (state : list (list Z)) :
  wf_state state →
  (∀ input, absorb_input input (absorb_input input state) = state) ∧
  (∀ n, absorb_input (replicate n x00) state = state) ∧
  (∀ input1 input2,
     absorb_input input2 (absorb_input input1 state)
     = absorb_input input1 (absorb_input input2 state)).
Proof.
  intros Hwf. grid_of Hwf. split; [|split].
  - intros input. rewrite !absorb_input_grid, !lxor_cancel. reflexivity.
  - intros n. rewrite absorb_input_grid, !input_word_zero by lia.
    rewrite !Z.lxor_0_r. reflexivity.
  - intros input1 input2. rewrite !absorb_input_grid.
    repeat (f_equal; try apply lxor_swap).
Qed.

Lemma absorb_input_xor_witness :
  wf_state calloc_state ∧
  absorb_input empty_padded_block
    (absorb_input empty_padded_block calloc_state) = calloc_state.
Proof.
  assert (Hwf : wf_state calloc_state)
    by (split; [reflexivity | repeat constructor]).
  split; [exact Hwf|].
  apply (absorb_input_xor calloc_state Hwf).
Defined.

(** ** The state stays a grid of 64-bit values *)

Create HintDb lane64.

Lemma zero_range : 0 ≤ 0 < 2 ^ 64.
Proof. lia. Qed.

Lemma byte_val_range64 (b : byte) : 0 ≤ byte_val b < 2 ^ 64.
Proof. pose proof (byte_val_range b). lia. Qed.

Lemma ROTL64_range_1_63 (x r : Z) :
  (r <=? 64) = true → 0 ≤ x < 2 ^ 64 → 0 ≤ ROTL64 x r < 2 ^ 64.
Proof. intros Hr. apply ROTL64_range. by apply Z.leb_le. Qed.

Lemma tbl_round_constants_range (round : Z) :
  0 ≤ tbl round_constants round < 2 ^ 64.
Proof.
  unfold tbl. rewrite list_lookup_total_alt.
  destruct (round_constants !! Z.to_nat round) as [c|] eqn:E; [|simpl; lia].
  assert (Hall : Forall (λ c, 0 ≤ c < 2 ^ 64) round_constants)
    by (repeat first [apply List.Forall_nil | apply List.Forall_cons]; lia).
  simpl. exact (proj1 (Forall_lookup _ _) Hall _ _ E).
Qed.

#[local] Hint Resolve zero_range byte_val_range64 lxor_range lor_range
  land_range shl64_range not64_range tbl_round_constants_range : lane64.
#[local] Hint Extern 1 (_ ≤ ROTL64 _ _ < _) =>
  apply ROTL64_range_1_63; [reflexivity|] : lane64.

Ltac lanes64_inv :=
  repeat match goal with
         | H : lanes64 _ |- _ => unfold lanes64 in H
         | H : Forall _ (_ :: _) |- _ => apply Forall_cons_1 in H as [? ?]
         | H : Forall _ [] |- _ => clear H
         end.

Ltac lanes64_intro :=
  unfold lanes64;
  repeat first [apply List.Forall_nil | apply List.Forall_cons];
  cbv beta; auto 20 with lane64.

Lemma input_word_range (input : list byte) (i : Z) :
  0 ≤ input_word input i < 2 ^ 64.
Proof.
  rewrite input_word_foldr.
  change (seqZ 0 8) with [0; 1; 2; 3; 4; 5; 6; 7]. cbn [foldr].
  auto with lane64.
Qed.

#[local] Hint Resolve input_word_range : lane64.

Lemma absorb_input_lanes64 input state :
  wf_state state → lanes64 state → lanes64 (absorb_input input state).
Proof.
  intros Hwf H64. grid_of Hwf. lanes64_inv.
  rewrite absorb_input_grid. lanes64_intro.
Qed.

Lemma theta_spec_lanes64 state :
  wf_state state → lanes64 state → lanes64 (theta_spec state).
Proof.
  intros Hwf H64. grid_of Hwf. lanes64_inv.
  match goal with
  | |- lanes64 ?t =>
      assert (∃ g, t = g ∧ lanes64 g) as (g & -> & Hg); [|exact Hg]
  end.
  eexists. split; [cbv -[Z.lxor ROTL64]; reflexivity|]. lanes64_intro.
Qed.

Lemma rho_pi_spec_lanes64 state :
  wf_state state → lanes64 state → lanes64 (rho_pi_spec state).
Proof.
  intros Hwf H64. grid_of Hwf. lanes64_inv.
  match goal with
  | |- lanes64 ?t =>
      assert (∃ g, t = g ∧ lanes64 g) as (g & -> & Hg); [|exact Hg]
  end.
  eexists. split; [cbv -[ROTL64]; reflexivity|]. lanes64_intro.
Qed.

Lemma chi_spec_lanes64 state :
  wf_state state → lanes64 state → lanes64 (chi_spec state).
Proof.
  intros Hwf H64. grid_of Hwf. lanes64_inv.
  match goal with
  | |- lanes64 ?t =>
      assert (∃ g, t = g ∧ lanes64 g) as (g & -> & Hg); [|exact Hg]
  end.
  eexists. split; [cbv -[Z.lxor Z.land not64]; reflexivity|]. lanes64_intro.
Qed.

Lemma iota_spec_lanes64 round state :
  wf_state state → lanes64 state → lanes64 (iota_spec round state).
Proof.
  intros Hwf H64. grid_of Hwf. lanes64_inv.
  match goal with
  | |- lanes64 ?t =>
      assert (∃ g, t = g ∧ lanes64 g) as (g & -> & Hg); [|exact Hg]
  end.
  eexists. split; [reflexivity|]. lanes64_intro.
Qed.

Lemma theta_spec_wf state : wf_state (theta_spec state).
Proof. apply grid_wf. Qed.

Lemma chi_spec_wf state : wf_state (chi_spec state).
Proof. apply grid_wf. Qed.

Lemma round_spec_lanes64 round state :
  wf_state state → lanes64 state → lanes64 (round_spec round state).
Proof.
  intros Hwf H64.
  apply iota_spec_lanes64; [apply chi_spec_wf|].
  apply chi_spec_lanes64; [apply rho_pi_spec_wf, theta_spec_wf|].
  apply rho_pi_spec_lanes64; [apply theta_spec_wf|].
  by apply theta_spec_lanes64.
Qed.

Lemma rounds_spec_invariant (rounds : list Z) state :
  wf_state state → lanes64 state →
  wf_state (foldl (λ st round, round_spec round st) state rounds) ∧
  lanes64 (foldl (λ st round, round_spec round st) state rounds).
Proof.
  revert state. induction rounds as [|r rounds IH]; intros state Hwf H64;
    [done|].
  cbn [foldl]. apply IH; [apply round_spec_wf | apply round_spec_lanes64];
    done.
Qed.

Lemma keccak_invariant state verbose out :
  wf_state state → lanes64 state →
  wf_state (keccak state verbose out).1 ∧ lanes64 (keccak state verbose out).1.
Proof.
  intros Hwf H64. rewrite keccak_state_spec by done.
  by apply rounds_spec_invariant.
Qed.

Lemma absorb_permute_invariant block state :
  wf_state state → lanes64 state →
  wf_state (absorb_permute block state) ∧ lanes64 (absorb_permute block state).
Proof.
  intros Hwf H64. unfold absorb_permute. apply keccak_invariant.
  - by apply absorb_input_wf.
  - by apply absorb_input_lanes64.
Qed.

Lemma absorb_full_blocks_invariant blocks state :
  wf_state state → lanes64 state →
  wf_state (absorb_full_blocks blocks state) ∧
  lanes64 (absorb_full_blocks blocks state).
Proof.
  revert state. induction blocks as [|b blocks IH]; intros state Hwf H64;
    [done|].
  rewrite absorb_full_blocks_cons.
  destruct (absorb_permute_invariant (b ++ replicate 64 x00) state Hwf H64).
  by apply IH.
Qed.

Lemma calloc_state_lanes64 : lanes64 calloc_state.
Proof. lanes64_intro. Qed.

(** X7: the state stays a 5x5 grid of 64-bit values: [absorb_input] and
    [keccak] map such a grid to such a grid, for every buffer and every
    value of the verbose flag, and so the state [main] ends with is one
    for every file.  No lane ever leaves the range of [uint64_t], which
    is what makes the shifts of [ROTL64] lose exactly the bits they
    should. *)
Theorem state_stays_uint64 :
  (∀ input state,
     wf_state state → lanes64 state →
     wf_state (absorb_input input state) ∧
     lanes64 (absorb_input input state)) ∧
  (∀ state verbose out,
     wf_state state → lanes64 state →
     wf_state (keccak state verbose out).1 ∧
     lanes64 (keccak state verbose out).1) ∧
  (∀ file verbose state out,
     main file verbose = Some (state, out) →
     wf_state state ∧ lanes64 state).
Proof.
  split; [|split].
  - intros input state Hwf H64.
    split; [by apply absorb_input_wf | by apply absorb_input_lanes64].
  - intros state verbose out. apply keccak_invariant.
  - intros file verbose state out Hmain.
    destruct (main_sponge_state file verbose) as [Hs _].
    set (final := absorb_full_blocks _ _) in Hs. rewrite Hmain in Hs.
    change (Some state = Some final) in Hs. apply (inj Some) in Hs.
    rewrite Hs. apply absorb_full_blocks_invariant;
      [apply calloc_state_wf | apply calloc_state_lanes64].
Qed.

Lemma state_stays_uint64_witness :
  wf_state calloc_state ∧ lanes64 calloc_state ∧
  wf_state (keccak calloc_state false EmptyString).1 ∧
  lanes64 (keccak calloc_state false EmptyString).1.
Proof.
  split; [apply calloc_state_wf|]. split; [apply calloc_state_lanes64|].
  destruct state_stays_uint64 as (_ & Hk & _).
  apply Hk; [apply calloc_state_wf | apply calloc_state_lanes64].
Defined.

(** ** rho and pi, lane by lane *)

(** X8: the single-carry loop of rho/pi is a relocation of lanes: lane
    (0,0) is not touched; step [i] of the loop leaves at position
    [pi_shifts[i]] the lane that was, before the loop, at the previous
    step's position (position 1 for the first step), rotated left by
    [rho_rotations[i]]; the 24 positions are pairwise different and lie
    in 1..24, so every lane but (0,0) is written exactly once; and every
    rotation amount lies in 1..63, so [ROTL64] never shifts by 0 or by 64
    bits. *)
Theorem rho_pi_step_lanes (m : kmem) :
  wf_state (k_state m) → length (k_temp_row m) = 5%nat →
  lane_at (k_state (rho_pi_step m)) 0 = lane_at (k_state m) 0 ∧
  (∀ i, 0 ≤ i < 24 →
        lane_at (k_state (rho_pi_step m)) (tbl pi_shifts i)
        = ROTL64 (lane_at (k_state m) (rho_pi_source i))
            (tbl rho_rotations i)) ∧
  NoDup pi_shifts ∧ Forall (λ j, 1 ≤ j ≤ 24) pi_shifts ∧
  length pi_shifts = 24%nat ∧
  Forall (λ r, 1 ≤ r ≤ 63) rho_rotations ∧ length rho_rotations = 24%nat.
Proof.
  intros Hwf Hrow. kmem_grid m Hwf Hrow.
  split; [reflexivity|]. split.
  { intros i Hi. counter_cases i 24%nat; cbv -[ROTL64]; reflexivity. }
  split; [refine (bool_decide_unpack (NoDup pi_shifts) _); vm_compute; exact I|].
  split; [repeat first [apply List.Forall_nil | apply List.Forall_cons]; lia|].
  split; [reflexivity|].
  split; [repeat first [apply List.Forall_nil | apply List.Forall_cons]; lia|].
  reflexivity.
Qed.

Lemma rho_pi_step_lanes_witness :
  wf_state calloc_state ∧ length (replicate 5 0) = 5%nat ∧
  lane_at (k_state (rho_pi_step (Kmem calloc_state (replicate 5 0) 0))) 0
  = lane_at calloc_state 0.
Proof.
  split; [apply calloc_state_wf|]. split; [reflexivity|].
  apply (rho_pi_step_lanes (Kmem calloc_state (replicate 5 0) 0)
           calloc_state_wf eq_refl).
Defined.

(** ** The scratch memory of keccak *)

Lemma keccak_loop_spec (state : list (list Z)) (row : list Z) (lane : Z)
    (verbose : bool) (out : string) :
  wf_state state → length row = 5%nat →
  k_state (for_up 0 KECCAK_ROUNDS (keccak_round verbose)
             (Kmem state row lane, out)).2.1
  = keccak_f_spec state.
Proof.
  intros Hwf Hrow. change KECCAK_ROUNDS with 24.
  pose (P := λ (i : Z) (s : kmem * string),
          k_state s.1 = foldl (λ st r, round_spec r st) state (seqZ 0 i) ∧
          wf_state (k_state s.1) ∧ length (k_temp_row s.1) = 5%nat).
  destruct (for_up_ind P 0 24 (keccak_round verbose)
              (Kmem state row lane, out)) as [_ HP].
  - unfold P. split; [reflexivity|]. split; [exact Hwf | exact Hrow].
  - intros i [m o] Hi (Hst & Hwfm & Hrowm).
    destruct (round_steps_spec i m Hwfm Hrowm) as [E R].
    unfold P. rewrite keccak_round_fst, E.
    split; [|split; [by apply round_spec_wf | exact R]].
    rewrite (seqZ_app 0 i 1) by lia. rewrite foldl_app.
    change (seqZ (0 + i) 1) with [0 + (0 + i)].
    rewrite !Z.add_0_l. cbn [foldl]. cbn [fst] in Hst.
    rewrite <- Hst. reflexivity.
  - change (Z.max 0 24) with 24 in HP. apply HP.
Qed.

(** X9: the result of the round loop of [keccak] does not depend on what
    the scratch row and the scratch lane hold when the loop starts: every
    round writes them before it reads them.  The zeroing by [calloc] and
    the missing initialisation of [temp_lane] are without effect. *)
Theorem keccak_scratch_independent (state : list (list Z)) (row : list Z)
    (lane : Z) (verbose : bool) (out : string) :
  wf_state state → length row = 5%nat →
  k_state (for_up 0 KECCAK_ROUNDS (keccak_round verbose)
             (Kmem state row lane, out)).2.1
  = (keccak state verbose out).1.
Proof.
  intros Hwf Hrow. rewrite keccak_loop_spec, keccak_state_spec by done.
  reflexivity.
Qed.

Lemma keccak_scratch_independent_witness :
  wf_state calloc_state ∧ length [1; 2; 3; 4; 5] = 5%nat ∧
  k_state (for_up 0 KECCAK_ROUNDS (keccak_round false)
             (Kmem calloc_state [1; 2; 3; 4; 5] 6, EmptyString)).2.1
  = (keccak calloc_state false EmptyString).1.
Proof.
  split; [apply calloc_state_wf|]. split; [reflexivity|].
  apply (keccak_scratch_independent calloc_state [1; 2; 3; 4; 5] 6 false
           EmptyString calloc_state_wf eq_refl).
Defined.

(** ** The text printed *)

Lemma append_assoc (a b c : string) : (a +:+ b) +:+ c = a +:+ b +:+ c.
Proof.
  induction a as [|x a IH]; [reflexivity|].
  change (String x ((a +:+ b) +:+ c) = String x (a +:+ b +:+ c)).
  by rewrite IH.
Qed.

Lemma length_append (a b : string) :
  String.length (a +:+ b) = (String.length a + String.length b)%nat.
Proof.
  induction a as [|x a IH]; [reflexivity|].
  change (S (String.length (a +:+ b))
          = S (String.length a + String.length b)).
  by rewrite IH.
Qed.

Lemma print_hash_val_text (state : list (list Z)) (out : string) :
  print_hash_val state out = out +:+ hash_val_text (digest_bytes state).
Proof.
  cbv -[String.append fmt_02X Z.shiftr Z.modulo ld2].
  rewrite !append_assoc. reflexivity.
Qed.

Lemma main_verbose_output (file : list byte) :
  ∃ state diag,
    main file false = Some (state, final_line state) ∧
    main file true
    = Some (state,
            diag +:+ "Hash val is" +:+ LF
                 +:+ hash_val_text (digest_bytes state)
                 +:+ final_line state).
Proof.
  destruct (main_quiet_output file) as [st Hq].
  assert (Hv : ∃ diag,
             main file true
             = Some (st, diag +:+ "Hash val is" +:+ LF
                              +:+ hash_val_text (digest_bytes st)
                              +:+ final_line st)).
  { pose proof (main_verbose_state file) as Hv. rewrite Hq in Hv.
    revert Hv. unfold main. destruct (fread _ _ file) as [[n buf] rest].
    destruct (main_loop _ true rest buf calloc_state n EmptyString)
      as [[st' o]|]; [|discriminate].
    intros Hv. change (Some st' = Some st) in Hv. apply (inj Some) in Hv.
    subst st'. cbv iota. rewrite print_hash_val_text.
    match goal with
    | |- ∃ diag, Some (_, ((?pl +:+ _) +:+ _) +:+ _) = _ => exists pl
    end.
    rewrite !append_assoc. unfold final_line. reflexivity. }
  destruct Hv as [diag Hv]. exists st, diag. split; [exact Hq | exact Hv].
Qed.

(** X10: with [-v] the program prints, after its diagnostics, the line
    [Hash val is] and then the 32 bytes of lanes (0,0) to (0,3), least
    significant byte of each lane first, as uppercase hex in two rows of
    16; this is the digest in its standard byte order.  The last line is
    the same line as without [-v], so the flag only puts text in front of
    it. *)
Theorem verbose_prints_digest_bytes (file : list byte) :
  ∃ state diag,
    main file false = Some (state, final_line state) ∧
    main file true
    = Some (state,
            diag +:+ "Hash val is" +:+ LF
                 +:+ hash_val_text (digest_bytes state)
                 +:+ final_line state) ∧
    length (digest_bytes state) = 32%nat ∧
    ∀ (c k : nat), (c < 4)%nat → (k < 8)%nat →
      digest_bytes state !! (8 * c + k)%nat
      = Some (Z.shiftr (ld2 state 0 (Z.of_nat c)) (8 * Z.of_nat k) mod 256).
Proof.
  destruct (main_verbose_output file) as (state & diag & Hq & Hv).
  exists state, diag. split; [exact Hq|]. split; [exact Hv|].
  split; [reflexivity|].
  intros c k Hc Hk.
  do 4 (destruct c as [|c]; [do 8 (destruct k as [|k]; [reflexivity|]); lia|]).
  lia.
Qed.

(** *** The length of the final line *)

Lemma hex_digits_count_step (x : Z) :
  16 ≤ x → hex_digits_count x = S (hex_digits_count (x / 16)).
Proof.
  intros Hx. unfold hex_digits_count. f_equal.
  change 16 with (2 ^ 4) at 1. rewrite <- Z.shiftr_div_pow2 by lia.
  rewrite Z.log2_shiftr by lia.
  assert (4 ≤ Z.log2 x) by (apply Z.log2_le_pow2; lia).
  rewrite Z.max_r by lia.
  assert (E : Z.log2 x / 4 = (Z.log2 x - 4) / 4 + 1).
  { replace (Z.log2 x) with ((Z.log2 x - 4) + 1 * 4) at 1 by lia.
    apply Z.div_add. lia. }
  assert (0 ≤ (Z.log2 x - 4) / 4) by (apply Z.div_pos; lia).
  rewrite E. lia.
Qed.

Lemma hex_digits_count_small (x : Z) : 0 ≤ x < 16 → hex_digits_count x = 1%nat.
Proof.
  intros Hx. unfold hex_digits_count. f_equal.
  destruct (Z.eq_dec x 0) as [->|Hne]; [reflexivity|].
  assert (Z.log2 x < 4) by (apply Z.log2_lt_pow2; lia).
  pose proof (Z.log2_nonneg x).
  rewrite Z.div_small by lia. reflexivity.
Qed.

Lemma digits_hex_length (alphabet : string) (fuel : nat) :
  ∀ (x : Z) (acc : string),
    0 ≤ x → (hex_digits_count x ≤ fuel)%nat →
    String.length (digits fuel 16 alphabet x acc)
    = (String.length acc + hex_digits_count x)%nat.
Proof.
  induction fuel as [|fuel IH]; intros x acc Hx Hfuel.
  - unfold hex_digits_count in Hfuel. lia.
  - cbn [digits]. destruct (Z.eqb_spec (x / 16) 0) as [H0|H0].
    + assert (x < 16).
      { destruct (Z.lt_ge_cases x 16); [done|].
        assert (1 ≤ x / 16) by (apply Z.div_le_lower_bound; lia). lia. }
      rewrite hex_digits_count_small by lia. cbn [String.length]. lia.
    + assert (16 ≤ x).
      { destruct (Z.lt_ge_cases x 16); [|done].
        rewrite Z.div_small in H0 by lia. done. }
      rewrite hex_digits_count_step in Hfuel |- * by done.
      rewrite IH; [cbn [String.length]; lia | apply Z.div_pos; lia | lia].
Qed.

Lemma hex_digits_count_64 (x : Z) :
  0 ≤ x < 2 ^ 64 →
  (1 ≤ hex_digits_count x ≤ 16)%nat ∧
  (hex_digits_count x = 16%nat ↔ 2 ^ 60 ≤ x).
Proof.
  intros Hx. unfold hex_digits_count.
  pose proof (Z.log2_nonneg x) as Hl0.
  pose proof (range64_log2 x Hx) as Hl.
  assert (0 ≤ Z.log2 x / 4 < 16)
    by (split; [apply Z.div_pos; lia | apply Z.div_lt_upper_bound; lia]).
  split; [lia|]. split.
  - intros Hc. assert (Z.log2 x / 4 = 15) as Hq by lia.
    assert (60 ≤ Z.log2 x).
    { destruct (Z.lt_ge_cases (Z.log2 x) 60); [|done].
      assert (Z.log2 x / 4 < 15) by (apply Z.div_lt_upper_bound; lia). lia. }
    destruct (Z.eq_dec x 0) as [->|]; [simpl in *; lia|].
    apply Z.log2_le_pow2; lia.
  - intros H60. assert (60 ≤ Z.log2 x) by (apply Z.log2_le_pow2; lia).
    assert (15 ≤ Z.log2 x / 4) by (apply Z.div_le_lower_bound; lia). lia.
Qed.

Lemma fmt_lx_length (x : Z) :
  0 ≤ x < 2 ^ 64 → String.length (fmt_lx x) = hex_digits_count x.
Proof.
  intros Hx. unfold fmt_lx. rewrite digits_hex_length; [done | lia |].
  pose proof (hex_digits_count_64 x Hx). lia.
Qed.

(** X11: without [-v] the program prints one line: [0x], the hex digits
    of lanes (0,0), (0,1), (0,2) and (0,4) without leading zeros, and a
    newline.  The line has at most 64 hex digits, and it has 64 exactly
    when each of the four lanes is at least 2^60; otherwise it is
    shorter. *)
Theorem final_line_digits (file : list byte) :
  ∃ state,
    main file false = Some (state, final_line state) ∧
    String.length (final_line state)
    = (3 + hex_digits_count (ld2 state 0 0) + hex_digits_count (ld2 state 0 1)
         + hex_digits_count (ld2 state 0 2)
         + hex_digits_count (ld2 state 0 4))%nat ∧
    (String.length (final_line state) ≤ 3 + 64)%nat ∧
    (String.length (final_line state) = (3 + 64)%nat ↔
     2 ^ 60 ≤ ld2 state 0 0 ∧ 2 ^ 60 ≤ ld2 state 0 1 ∧
     2 ^ 60 ≤ ld2 state 0 2 ∧ 2 ^ 60 ≤ ld2 state 0 4).
Proof.
  destruct (main_quiet_output file) as [state Hq]. exists state.
  split; [exact Hq|].
  pose proof (main_sponge_state file false) as [Hs _]. rewrite Hq in Hs.
  set (final := absorb_full_blocks _ _) in Hs.
  change (Some state = Some final) in Hs. apply (inj Some) in Hs.
  destruct (absorb_full_blocks_invariant
              (full_blocks (S (length file / 136)) (padded_message file))
              calloc_state calloc_state_wf calloc_state_lanes64)
    as [Hwf H64].
  fold final in Hwf, H64. rewrite <- Hs in Hwf, H64. clear Hs final Hq.
  grid_of Hwf. lanes64_inv.
  change (ld2 _ 0 0) with a. change (ld2 _ 0 1) with a0.
  change (ld2 _ 0 2) with a1. change (ld2 _ 0 4) with a3.
  assert (E : String.length
                (final_line [[a; a0; a1; a2; a3]; [b; b0; b1; b2; b3];
                             [c; c0; c1; c2; c3]; [d; d0; d1; d2; d3];
                             [e; e0; e1; e2; e3]])
              = (3 + hex_digits_count a + hex_digits_count a0
                   + hex_digits_count a1 + hex_digits_count a3)%nat).
  { unfold final_line.
    change (ld2 _ 0 0) with a. change (ld2 _ 0 1) with a0.
    change (ld2 _ 0 2) with a1. change (ld2 _ 0 4) with a3.
    rewrite !length_append, !fmt_lx_length by done.
    change (String.length "0x") with 2%nat. change (String.length LF) with 1%nat.
    lia. }
  rewrite E.
  pose proof (hex_digits_count_64 a ltac:(done)) as [? ?].
  pose proof (hex_digits_count_64 a0 ltac:(done)) as [? ?].
  pose proof (hex_digits_count_64 a1 ltac:(done)) as [? ?].
  pose proof (hex_digits_count_64 a3 ltac:(done)) as [? ?].
  split; [done|]. split; [lia|]. split.
  - intros Hlen.
    assert (hex_digits_count a = 16 ∧ hex_digits_count a0 = 16 ∧
            hex_digits_count a1 = 16 ∧ hex_digits_count a3 = 16)%nat
      as (? & ? & ? & ?) by lia.
    tauto.
  - intros (? & ? & ? & ?).
    assert (hex_digits_count a = 16 ∧ hex_digits_count a0 = 16 ∧
            hex_digits_count a1 = 16 ∧ hex_digits_count a3 = 16)%nat
      as (? & ? & ? & ?) by tauto.
    lia.
Qed.

(** ** The command line *)

Lemma verbose_flag_prefix (arg : string) :
  Ascii.eqb (arg_char arg 0) "-" && Ascii.eqb (arg_char arg 1) "v" = true
  ↔ ∃ suffix, arg = "-v" +:+ suffix.
Proof.
  rewrite andb_true_iff, !Ascii.eqb_eq. unfold arg_char. split.
  - intros [H1 H2]. destruct arg as [|c1 [|c2 arg]]; cbn in H1, H2;
      try discriminate.
    subst c1 c2. by exists arg.
  - intros [suffix ->]. split; reflexivity.
Qed.

(** X12: the shell of [main].  With no file argument it prints the usage
    line and returns -1; when the file cannot be opened it prints the
    error line with the file name and returns -1; in both cases nothing
    is hashed.  Otherwise it returns 0 and prints what the hashing of the
    file's content prints, verbosely exactly when a third argument exists
    and begins with [-v] (so [-v], [-vv] and [-verbose] all switch the
    diagnostics on); further arguments are ignored. *)
Theorem main_argv_cases (files : string → option (list byte)) :
  (∀ argv, (length argv < 2)%nat →
     main_argv files argv
     = Some (-1, "USAGE: ./sha3 <file_to_hash>" +:+ LF)) ∧
  (∀ prog path rest, files path = None →
     main_argv files (prog :: path :: rest)
     = Some (-1, "ERROR: could not read file " +:+ path +:+ LF)) ∧
  (∀ prog path infile, files path = Some infile →
     main_argv files [prog; path]
     = (λ r, (0, r.2)) <$> main infile false) ∧
  (∀ prog path arg rest infile, files path = Some infile →
     ∃ verbose : bool,
       (verbose = true ↔ ∃ suffix, arg = "-v" +:+ suffix) ∧
       main_argv files (prog :: path :: arg :: rest)
       = (λ r, (0, r.2)) <$> main infile verbose) ∧
  (∀ argv, is_Some (main_argv files argv)).
Proof.
  split; [|split; [|split; [|split]]].
  - intros argv Hlen. unfold main_argv.
    destruct (Z.ltb_spec (Z.of_nat (length argv)) 2); [done | lia].
  - intros prog path rest Hf. unfold main_argv. cbn [length].
    destruct (Z.ltb_spec (Z.of_nat (S (S (length rest)))) 2); [lia|].
    cbn [lookup list_lookup default from_option id]. rewrite Hf. reflexivity.
  - intros prog path infile Hf. unfold main_argv.
    change (Z.of_nat (length [prog; path]) <? 2) with false. cbv iota.
    cbn [lookup list_lookup default from_option id]. rewrite Hf.
    change (2 <? Z.of_nat (length [prog; path])) with false.
    rewrite !andb_false_l.
    by destruct (main infile false) as [[st out]|].
  - intros prog path arg rest infile Hf.
    exists (Ascii.eqb (arg_char arg 0) "-" && Ascii.eqb (arg_char arg 1) "v").
    split; [apply verbose_flag_prefix|].
    unfold main_argv. cbn [length].
    destruct (Z.ltb_spec (Z.of_nat (S (S (S (length rest))))) 2); [lia|].
    destruct (Z.ltb_spec 2 (Z.of_nat (S (S (S (length rest)))))); [|lia].
    cbn [lookup list_lookup default from_option id]. rewrite Hf.
    rewrite andb_true_l.
    by destruct (main infile _) as [[st out]|].
  - intros argv. unfold main_argv.
    destruct (Z.of_nat (length argv) <? 2); [done|].
    destruct (files _) as [infile|]; [|done].
    match goal with |- context [main infile ?v] =>
      destruct (main_total infile v) as [[st out] ->] end.
    done.
Qed.

(** ** The tables of keccak in closed form *)

(** X13: what the rho/pi loop does is the rho and pi of Keccak: along the
    walk that starts at column 1 of row 0, the lane at column [x] of row
    [y] ends at column [y] of row [(2x + 3y) mod 5], rotated left by
    [(t + 1)(t + 2) / 2 mod 64] at step [t]; the 24 targets are pairwise
    different and none is (0,0). *)
Theorem rho_pi_step_walk (m : kmem) :
  wf_state (k_state m) → length (k_temp_row m) = 5%nat →
  Forall (λ '(r, c, r', c', rot),
            ld2 (k_state (rho_pi_step m)) r' c'
            = ROTL64 (ld2 (k_state m) r c) rot)
    (rho_pi_walk 24 1 0 0) ∧
  NoDup ((λ '(_, _, r', c', _), (r', c')) <$> rho_pi_walk 24 1 0 0) ∧
  (0, 0) ∉ (λ '(_, _, r', c', _), (r', c')) <$> rho_pi_walk 24 1 0 0.
Proof.
  intros Hwf Hrow. kmem_grid m Hwf Hrow. split; [|split].
  - let l := eval vm_compute in (rho_pi_walk 24 1 0 0) in
    change (rho_pi_walk 24 1 0 0) with l.
    repeat first [apply List.Forall_nil | apply List.Forall_cons];
      cbv -[ROTL64]; reflexivity.
  - refine (bool_decide_unpack _ _). vm_compute. exact I.
  - refine (bool_decide_unpack _ _). vm_compute. exact I.
Qed.

Lemma rho_pi_step_walk_witness :
  wf_state calloc_state ∧ length (replicate 5 0) = 5%nat ∧
  NoDup ((λ '(_, _, r', c', _), (r', c')) <$> rho_pi_walk 24 1 0 0).
Proof.
  split; [apply calloc_state_wf|]. split; [reflexivity|].
  apply (rho_pi_step_walk (Kmem calloc_state (replicate 5 0) 0)
           calloc_state_wf eq_refl).
Defined.

(** X14: the 24 round constants that iota XORs into lane (0,0) are the
    ones Keccak defines by its 8-bit feedback shift register: round [r]
    takes output bits [7r] to [7r + 6] and puts them at bit positions 0,
    1, 3, 7, 15, 31 and 63. *)
Theorem round_constants_lfsr :
  round_constants = lfsr_round_constant <$> seq 0 24 ∧
  ∀ (round : nat) (m : kmem),
    (round < 24)%nat → wf_state (k_state m) →
    ld2 (k_state (iota_step (Z.of_nat round) m)) 0 0
    = Z.lxor (ld2 (k_state m) 0 0) (lfsr_round_constant round).
Proof.
  split; [vm_compute; reflexivity|].
  intros round [state row lane] Hr Hwf. cbn [k_state] in Hwf. grid_of Hwf.
  do 24 (destruct round as [|round];
         [match goal with
          | |- _ = Z.lxor _ (lfsr_round_constant ?k) =>
              let c := eval vm_compute in (lfsr_round_constant k) in
              change (lfsr_round_constant k) with c
          end; reflexivity|]).
  lia.
Qed.

(** ** The diagnostic printers *)

Lemma byte_val_of_Z (z : Z) : byte_val (byte_of_Z z) = z mod 256.
Proof.
  unfold byte_val, byte_of_Z.
  pose proof (Z.mod_pos_bound z 256 ltac:(lia)) as Hm.
  destruct (Byte.of_N (Z.to_N (z mod 256))) as [b|] eqn:E.
  - apply Byte.to_of_N in E. simpl. rewrite E. lia.
  - apply Byte.of_N_None_iff in E. lia.
Qed.

(** X15: [print_state] prints a state exactly as [print_input] prints the
    200 bytes of that state (the lanes row by row, least significant byte
    first): the two diagnostics share one layout, 16 bytes to a row, and
    a state can be compared byte for byte with an input block. *)
Theorem print_state_as_print_input (state : list (list Z)) (out : string) :
  print_state state out = print_input (state_bytes state) out ∧
  length (state_bytes state) = 200%nat.
Proof.
  split; [|reflexivity].
  cbv -[String.append fmt_02X Z.shiftr Z.modulo ld2 byte_val byte_of_Z].
  rewrite !byte_val_of_Z. reflexivity.
Qed.

(** * primes.c *)

(** ** Orders modulo a safe prime *)

Lemma pow_mod_one (g n e k : Z) :
  1 < n → 0 ≤ e → 0 ≤ k → g ^ e mod n = 1 → g ^ (e * k) mod n = 1.
Proof.
  intros Hn He Hk H1. rewrite Z.pow_mul_r by lia.
  rewrite <- Z.mod_pow_l, H1, Z.pow_1_l by lia. apply Z.mod_small. lia.
Qed.

(** If [g^a] and [g^b] are 1 modulo [n], so is [g^gcd(a,b)]. *)
Lemma pow_gcd_one (g n : Z) :
  1 < n →
  ∀ b a, 0 ≤ b → 0 ≤ a →
         g ^ a mod n = 1 → g ^ b mod n = 1 → g ^ Z.gcd a b mod n = 1.
Proof.
  intros Hn b.
  induction (Z.lt_wf 0 b) as [b _ IH]. intros a Hb Ha Ha1 Hb1.
  destruct (Z.eq_dec b 0) as [->|Hb0].
  { rewrite Z.gcd_0_r, Z.abs_eq by lia. done. }
  rewrite <- Z.gcd_mod_l. 
  pose proof (Z.mod_pos_bound a b ltac:(lia)) as Hr.
  rewrite Z.gcd_comm. apply IH; [lia | lia | lia | done |].
  pose proof (Z.div_mod a b Hb0) as Hdm.
  assert (0 ≤ a / b) by (apply Z.div_pos; lia).
  assert (E : g ^ a = g ^ (b * (a / b)) * g ^ (a mod b)).
  { rewrite <- Z.pow_add_r by (lia || nia). by rewrite <- Hdm. }
  rewrite E in Ha1. rewrite <- Z.mul_mod_idemp_l in Ha1 by lia.
  rewrite (pow_mod_one g n b (a / b)) in Ha1 by (lia || done).
  by rewrite Z.mul_1_l in Ha1.
Qed.

(** A positive divisor of [2q], [q] prime, is 1, 2, [q] or [2q]. *)
Lemma divisor_of_2q (q d : Z) :
  Z.prime q → 0 < d → (d | 2 * q) → d = 1 ∨ d = 2 ∨ d = q ∨ d = 2 * q.
Proof.
  intros Hq Hd Hdiv. pose proof (Z.prime_ge_2 q Hq) as Hq2.
  destruct (Z.eq_dec (d mod q) 0) as [H0|H0].
  - apply Z.mod_divide in H0 as [m Hm]; [|lia].
    assert (Hm2 : (m | 2)).
    { apply (Z.mul_divide_cancel_r m 2 q); [lia|]. by rewrite <- Hm. }
    assert (0 < m) by nia.
    apply Z.divide_pos_le in Hm2 as Hle; [|lia].
    assert (m = 1 ∨ m = 2) as [->| ->] by lia; lia.
  - assert (Hnd : ¬ (q | d)).
    { intros Hqd. apply H0. by apply Z.mod_divide; [lia|]. }
    assert (Hc : Z.gcd d q = 1).
    { rewrite Z.gcd_comm. by apply Z.coprime_prime_l. }
    rewrite Z.mul_comm in Hdiv. apply Z.gauss in Hdiv; [|done].
    apply Z.divide_pos_le in Hdiv as Hle; lia.
Qed.

Lemma passes_tests_spec (n q i : Z) :
  passes_tests n q i = true ↔
  i ^ 1 mod n ≠ 1 ∧ i ^ 2 mod n ≠ 1 ∧ i ^ q mod n ≠ 1.
Proof.
  unfold passes_tests. rewrite !andb_true_iff, !negb_true_iff, !Z.eqb_neq.
  tauto.
Qed.

Lemma passes_tests_generator (n q i : Z) :
  Z.prime n → Z.prime q → n = 2 * q + 1 → ¬ (n | i) →
  passes_tests n q i = true ↔ full_period_generator n i.
Proof.
  intros Hn Hq Hnq Hi.
  pose proof (Z.prime_ge_2 n Hn) as Hn2. pose proof (Z.prime_ge_2 q Hq) as Hq2.
  rewrite passes_tests_spec. split.
  - intros (H1 & H2 & H3).
    assert (Hf : i ^ (n - 1) mod n = 1).
    { apply Stdlib.Zmod.ZmodInv.Z.fermat_nz; [done|].
      intros H0. apply Hi. by apply Z.mod_divide; [lia|]. }
    split; [done|]. intros k Hk Hk1.
    pose proof (pow_gcd_one i n ltac:(lia) (n - 1) k ltac:(lia) ltac:(lia)
                  Hk1 Hf) as Hg.
    assert (Hd : (Z.gcd k (n - 1) | 2 * q)).
    { replace (2 * q) with (n - 1) by lia. apply Z.gcd_divide_r. }
    assert (Hpos : 0 < Z.gcd k (n - 1)).
    { pose proof (Z.gcd_nonneg k (n - 1)).
      destruct (Z.eq_dec (Z.gcd k (n - 1)) 0) as [E|]; [|lia].
      apply Z.gcd_eq_0_l in E. lia. }
    assert (Hle : Z.gcd k (n - 1) ≤ k).
    { apply Z.divide_pos_le; [lia | apply Z.gcd_divide_l]. }
    destruct (divisor_of_2q q _ Hq Hpos Hd) as [E|[E|[E|E]]];
      rewrite E in Hg; try done; lia.
  - intros [_ Hall]. repeat split; apply Hall; lia.
Qed.

(** ** The loop over the candidates *)

Lemma append_nil_r (s : string) : s +:+ EmptyString = s.
Proof.
  induction s as [|c s IH]; [reflexivity|].
  change (String c (s +:+ EmptyString) = String c s). by rewrite IH.
Qed.

Lemma generator_loop_body (n q i : Z) (out : string) :
  (if i ^ 1 mod n =? 1 then out
   else if i ^ 2 mod n =? 1 then out
        else if i ^ q mod n =? 1 then out
             else out +:+ fmt_d i +:+ " is a full-period generator" +:+ LF)
  = out +:+ generator_lines (filter (λ i, passes_tests n q i = true) [i]).
Proof.
  unfold passes_tests. cbn [filter list_filter].
  destruct (i ^ 1 mod n =? 1), (i ^ 2 mod n =? 1), (i ^ q mod n =? 1);
    cbn [negb andb]; destruct (decide _) as [H|H]; try discriminate H;
    try (exfalso; by apply H);
    cbn [generator_lines foldr]; rewrite ?append_nil_r; reflexivity.
Qed.

(** A loop [for (i = lo; i <= hi; i++)] with enough fuel visits
    [lo .. hi] in order. *)
Lemma c_for_le_foldl {S : Type} (body : Z → S → S) (hi : Z) (n : nat) :
  ∀ (lo : Z) (s : S),
    hi = lo + Z.of_nat n - 1 →
    (c_for n (λ i, i <=? hi) Z.succ body lo s).2
    = foldl (λ s i, body i s) s (seqZ lo (Z.of_nat n)).
Proof.
  induction n as [|n IH]; intros lo s Hhi; [reflexivity|].
  cbn [c_for]. destruct (Z.leb_spec lo hi); [|lia].
  rewrite IH by lia. rewrite (seqZ_cons lo) by lia.
  cbn [foldl]. do 2 f_equal. lia.
Qed.

Lemma generator_lines_app (l1 l2 : list Z) :
  generator_lines (l1 ++ l2) = generator_lines l1 +:+ generator_lines l2.
Proof.
  induction l1 as [|i l1 IH]; [reflexivity|].
  cbn [app generator_lines foldr]. fold (generator_lines (l1 ++ l2)).
  fold (generator_lines l1). rewrite IH, !append_assoc. reflexivity.
Qed.

Lemma generator_loop_lines (n q : Z) (out : string) :
  Primes.generator_loop n q out
  = out +:+ generator_lines
              (filter (λ i, passes_tests n q i = true) (seqZ 1 20)).
Proof.
  unfold Primes.generator_loop.
  rewrite (c_for_le_foldl _ 20 20 1) by lia.
  change (Z.of_nat 20) with 20.
  generalize (seqZ 1 20) as l. intros l. revert out.
  induction l as [|i l IH]; intros out.
  - rewrite filter_nil. cbn [foldl generator_lines foldr].
    by rewrite append_nil_r.
  - cbn [foldl]. rewrite generator_loop_body, IH.
    rewrite (filter_cons _ i l).
    change (filter (λ i0, passes_tests n q i0 = true) [i])
      with (if decide (passes_tests n q i = true) then [i] else []).
    destruct (decide (passes_tests n q i = true));
      rewrite append_assoc; [|reflexivity].
    change (i :: filter (λ i0, passes_tests n q i0 = true) l)
      with ([i] ++ filter (λ i0, passes_tests n q i0 = true) l).
    by rewrite generator_lines_app.
Qed.

Lemma passes_tests_multiple (n q i : Z) :
  2 ≤ n → 1 ≤ q → (n | i) →
  passes_tests n q i = true ∧ ¬ full_period_generator n i.
Proof.
  intros Hn Hq Hdiv.
  assert (H0 : ∀ e, 1 ≤ e → i ^ e mod n = 0).
  { intros e He. apply Z.mod_divide; [lia|].
    replace e with (1 + (e - 1)) by lia. rewrite Z.pow_add_r, Z.pow_1_r by lia.
    by apply Z.divide_mul_l. }
  split.
  - apply passes_tests_spec. rewrite !H0 by lia. lia.
  - intros [H1 _]. rewrite H0 in H1 by lia. lia.
Qed.

Lemma prime_odd (n : Z) : Z.prime n → n ≠ 2 → (n - 1) mod 2 = 0.
Proof.
  intros Hn Hn2. pose proof (Z.prime_ge_2 n Hn).
  destruct (Z.eq_dec (n mod 2) 0) as [H0|H0].
  - apply Z.mod_divide in H0; [|lia].
    apply (Z.divide_prime_prime 2 n Z.prime_2 Hn) in H0. lia.
  - pose proof (Z.mod_pos_bound n 2 ltac:(lia)).
    rewrite Zminus_mod. replace (n mod 2) with 1 by lia. reflexivity.
Qed.

(** X16: when the argument parses to a number [n] such that [n] and
    [(n - 1) / 2] are prime, and the primality test rejects no prime, the
    program returns 0 and prints that the input is prime and safe, the
    prime [(n - 1) / 2], and a line for each candidate [i] of 1..20, in
    increasing order, that is a full-period generator modulo [n] (of
    multiplicative order exactly [n - 1]) or a multiple of [n]; it prints
    no other candidate.  For [n > 20] the lines are exactly the
    full-period generators among 1..20. *)
Theorem safe_prime_generators (set_str : string → option Z)
    (probab_prime_p : Z → Z → Z) (prog arg : string) (rest : list string)
    (n : Z) :
  set_str arg = Some n →
  Z.prime n → Z.prime ((n - 1) / 2) →
  (∀ p, Z.prime p → probab_prime_p p 32 ≠ 0) →
  ∃ l : list Z,
    Primes.main set_str probab_prime_p (prog :: arg :: rest)
    = Some (0, "input is prime" +:+ LF
               +:+ "input is a safe prime. its Sophie Germain prime is:"
               +:+ LF +:+ Primes.fmt_mpz ((n - 1) / 2) +:+ LF
               +:+ generator_lines l) ∧
    l = filter (λ i, passes_tests n ((n - 1) / 2) i = true) (seqZ 1 20) ∧
    (∀ i, i ∈ l ↔
          1 ≤ i ≤ 20 ∧ (full_period_generator n i ∨ (n | i))) ∧
    (20 < n → ∀ i, i ∈ l ↔ 1 ≤ i ≤ 20 ∧ full_period_generator n i).
Proof.
  intros Hparse Hn Hq Htest.
  pose proof (Z.prime_ge_2 n Hn) as Hn2.
  pose proof (Z.prime_ge_2 _ Hq) as Hq2.
  assert (Hne2 : n ≠ 2).
  { intros ->. change ((2 - 1) / 2) with 0 in Hq2. lia. }
  pose proof (prime_odd n Hn Hne2) as Hodd.
  assert (Hnq : n = 2 * ((n - 1) / 2) + 1).
  { pose proof (Z.div_mod (n - 1) 2 ltac:(lia)). lia. }
  set (q := (n - 1) / 2) in *.
  assert (Hmem : ∀ i, i ∈ filter (λ i, passes_tests n q i = true) (seqZ 1 20)
                      ↔ 1 ≤ i ≤ 20 ∧ (full_period_generator n i ∨ (n | i))).
  { intros i. rewrite list_elem_of_filter, elem_of_seqZ.
    destruct (Z.eq_dec (i mod n) 0) as [H0|H0].
    - apply Z.mod_divide in H0; [|lia].
      destruct (passes_tests_multiple n q i ltac:(lia) ltac:(lia) H0).
      split; [intros [_ ?]; split; [lia | by right]|].
      intros [? _]. split; [done | lia].
    - assert (Hnd : ¬ (n | i)).
      { intros Hd. apply H0. by apply Z.mod_divide; [lia|]. }
      rewrite (passes_tests_generator n q i Hn Hq Hnq Hnd).
      split; [intros [? ?]; split; [lia | by left]|].
      intros [? [?|?]]; [split; [done | lia] | contradiction]. }
  exists (filter (λ i, passes_tests n q i = true) (seqZ 1 20)).
  split; [|split; [reflexivity|split; [exact Hmem|]]].
  - unfold Primes.main. cbn [length].
    destruct (Z.ltb_spec (Z.of_nat (S (S (length rest)))) 2); [lia|].
    cbn [lookup list_lookup default from_option id]. rewrite Hparse.
    change Primes.MILLER_RABIN_REPS with 32.
    destruct (Z.eqb_spec (probab_prime_p n 32) 0) as [E|_];
      [by apply Htest in E|].
    destruct (Z.eqb_spec n 2); [lia|].
    rewrite Hodd. change (0 =? 0) with true. cbv iota. fold q.
    destruct (Z.eqb_spec (probab_prime_p q 32) 0) as [E|_];
      [by apply Htest in E|].
    rewrite generator_loop_lines, !append_assoc. reflexivity.
  - intros Hbig i. rewrite Hmem. split; [|intros [? ?]; split; [done | by left]].
    intros [Hi [Hg|Hd]]; [done|].
    apply Z.divide_pos_le in Hd; lia.
Qed.

Lemma prime_7 : Z.prime 7.
Proof.
  split; [lia|]. intros n Hn [k Hk].
  assert (n = 2 ∨ n = 3 ∨ n = 4 ∨ n = 5 ∨ n = 6) as [->|[->|[->|[->| ->]]]]
    by lia; lia.
Qed.

Lemma safe_prime_generators_witness :
  ∃ l : list Z,
    Primes.main (λ _, Some 7) (λ _ _, 2) ["primes"; "7"]
    = Some (0, "input is prime" +:+ LF
               +:+ "input is a safe prime. its Sophie Germain prime is:"
               +:+ LF +:+ Primes.fmt_mpz ((7 - 1) / 2) +:+ LF
               +:+ generator_lines l) ∧
    l = filter (λ i, passes_tests 7 ((7 - 1) / 2) i = true) (seqZ 1 20).
Proof.
  destruct (safe_prime_generators (λ _, Some 7) (λ _ _, 2) "primes" "7" [] 7
              eq_refl prime_7 Z.prime_3 ltac:(intros; lia))
    as (l & Hmain & Hl & _).
  exists l. split; [exact Hmain | exact Hl].
Defined.

(** X17: the other ways through [main] of primes.c.  Without an argument
    it prints the usage line with the program name and returns -1; when
    the number does not parse it prints [error reading input] and returns
    -1.  Otherwise it returns 0: it prints [input is not prime] when the
    test gives 0 for [n]; for [n = 2] it prints that the input is prime
    and not a safe prime without testing anything else; for another odd
    [n] it prints the same two lines when the test gives 0 for
    [(n - 1) / 2].  In none of these cases is a generator line printed. *)
Theorem primes_main_cases (set_str : string → option Z)
    (probab_prime_p : Z → Z → Z) :
  (∀ argv, (length argv < 2)%nat →
     Primes.main set_str probab_prime_p argv
     = Some (-1, "USAGE: " +:+ default EmptyString (argv !! 0%nat)
                           +:+ " <number>" +:+ LF)) ∧
  (∀ prog arg rest, set_str arg = None →
     Primes.main set_str probab_prime_p (prog :: arg :: rest)
     = Some (-1, "error reading input" +:+ LF)) ∧
  (∀ prog arg rest n, set_str arg = Some n → probab_prime_p n 32 = 0 →
     Primes.main set_str probab_prime_p (prog :: arg :: rest)
     = Some (0, "input is not prime" +:+ LF)) ∧
  (∀ prog arg rest, set_str arg = Some 2 → probab_prime_p 2 32 ≠ 0 →
     Primes.main set_str probab_prime_p (prog :: arg :: rest)
     = Some (0, "input is prime" +:+ LF
                +:+ "input is not a safe prime" +:+ LF)) ∧
  (∀ prog arg rest n, set_str arg = Some n → probab_prime_p n 32 ≠ 0 →
     n mod 2 = 1 → probab_prime_p ((n - 1) / 2) 32 = 0 →
     Primes.main set_str probab_prime_p (prog :: arg :: rest)
     = Some (0, "input is prime" +:+ LF
                +:+ "input is not a safe prime" +:+ LF)).
Proof.
  assert (Hargc : ∀ (prog arg : string) (rest : list string),
             (Z.of_nat (length (prog :: arg :: rest)) <? 2) = false).
  { intros. cbn [length]. apply Z.ltb_ge. lia. }
  split; [|split; [|split; [|split]]].
  - intros argv Hlen. unfold Primes.main.
    destruct (Z.ltb_spec (Z.of_nat (length argv)) 2); [done | lia].
  - intros prog arg rest Hp. unfold Primes.main. rewrite Hargc.
    cbn [lookup list_lookup default from_option id]. by rewrite Hp.
  - intros prog arg rest n Hp Ht. unfold Primes.main. rewrite Hargc.
    cbn [lookup list_lookup default from_option id]. rewrite Hp.
    change Primes.MILLER_RABIN_REPS with 32. by rewrite Ht.
  - intros prog arg rest Hp Ht. unfold Primes.main. rewrite Hargc.
    cbn [lookup list_lookup default from_option id]. rewrite Hp.
    change Primes.MILLER_RABIN_REPS with 32.
    destruct (Z.eqb_spec (probab_prime_p 2 32) 0); [done|].
    change (2 =? 2) with true. cbv iota. by rewrite append_assoc.
  - intros prog arg rest n Hp Ht Hodd Hq. unfold Primes.main. rewrite Hargc.
    cbn [lookup list_lookup default from_option id]. rewrite Hp.
    change Primes.MILLER_RABIN_REPS with 32.
    destruct (Z.eqb_spec (probab_prime_p n 32) 0); [done|].
    destruct (Z.eqb_spec n 2) as [->|_]; [done|].
    assert (Heven : (n - 1) mod 2 = 0).
    { rewrite Zminus_mod, Hodd. reflexivity. }
    rewrite Heven, Hq. change (0 =? 0) with true. cbv iota.
    by rewrite append_assoc.
Qed.
